(** * Bio.PDB.Interface: a shallow embedding and its properties

    The [Interface] class of [Bio/PDB/Interface.py] gathers the residues of
    two or more chains that are in contact, builds a contact map out of the
    raw residue pairs ([set_neighbors]), and compares or characterises
    interfaces ([fcc], [rmsd], [calculate_BSA], [calculate_percentage]).

    The module is Python 2 code (print statements, [itervalues]):
    [/] on two [int]s is floor division.

    Conventions of the embedding:
    - a Python exception is a value of [exn]; a call that can raise returns a
      [result];
    - a method that mutates [self] is a computation of the state-and-error
      monad [M]: the state survives an exception, as the mutations of a
      Python object do;
    - objects that are compared or hashed by identity (residues, atoms) carry
      their identity in a [uid] field, so that equality of records is
      identity of objects;
    - a [dict] is an association list with unique keys; its order stands for
      the iteration order of the Python dict, a new key goes to the end;
    - a Python [float] is an exact rational ([Q]); [float(n)] of an [int] is
      exact, and the rounding of a true division is left out. *)

From Stdlib Require Import ZArith QArith.
From stdpp Require Import base decidable option list sorting strings gmap.

Local Open Scope string_scope.
Local Open Scope list_scope.
Local Open Scope Z_scope.

(** ** Exceptions and results *)

Inductive exn : Type :=
  | NameError (name : string)       (* also UnboundLocalError, its subclass *)
  | AttributeError (name : string)
  | KeyError
  | IndexError
  | ZeroDivisionError
  | ValueError (msg : string)
  | ServiceError.                   (* raised inside an external collaborator *)

Inductive result (A : Type) : Type :=
  | Ok (a : A)
  | Raise (e : exn).
Arguments Ok {A} a.
Arguments Raise {A} e.

(** The exceptions the interpreter raises by itself, as opposed to the ones
    a [raise] statement of the program (or of a collaborator) reports. *)
Definition raised_by_interpreter (e : exn) : bool :=
  match e with
  | NameError _ | AttributeError _ | KeyError | IndexError
  | ZeroDivisionError => true
  | ValueError _ | ServiceError => false
  end.

Definition explicit_failure {A} (r : result A) : Prop :=
  ∃ e, r = Raise e ∧ raised_by_interpreter e = false.

Definition result_bind {A B} (r : result A) (k : A → result B) : result B :=
  match r with
  | Ok a => k a
  | Raise e => Raise e
  end.

Definition from_option {A} (e : exn) (o : option A) : result A :=
  match o with
  | Some a => Ok a
  | None => Raise e
  end.

(** [[f(x) for x in l]], stopping at the first exception. *)
Fixpoint result_map {A B} (f : A → result B) (l : list A) : result (list B) :=
  match l with
  | [] => Ok []
  | x :: l' =>
      result_bind (f x) (λ y,
      result_bind (result_map f l') (λ ys, Ok (y :: ys)))
  end.

(** ** The state-and-error monad *)

Definition M (S A : Type) : Type := S → result A * S.

Definition ret {S A} (a : A) : M S A := λ s, (Ok a, s).
Definition raise {S A} (e : exn) : M S A := λ s, (Raise e, s).
Definition bind {S A B} (m : M S A) (k : A → M S B) : M S B :=
  λ s, match m s with
       | (Ok a, s') => k a s'
       | (Raise e, s') => (Raise e, s')
       end.
Definition get {S} : M S S := λ s, (Ok s, s).
Definition gets {S A} (f : S → A) : M S A := λ s, (Ok (f s), s).
Definition put {S} (s : S) : M S unit := λ _, (Ok tt, s).
Definition modify {S} (f : S → S) : M S unit := λ s, (Ok tt, f s).
Definition lift {S A} (r : result A) : M S A := λ s, (r, s).

#[global] Instance result_ret : MRet result := λ A a, Ok a.
#[global] Instance result_mbind : MBind result := λ A B k r, result_bind r k.
#[global] Instance M_ret {S} : MRet (M S) := λ A a, ret a.
#[global] Instance M_bind {S} : MBind (M S) := λ A B k m, bind m k.

(** [for x in l: body(x)] *)
Fixpoint for_each {S A} (l : list A) (body : A → M S unit) : M S unit :=
  match l with
  | [] => ret tt
  | x :: l' => body x;; for_each l' body
  end.

Definition when {S} (b : bool) (m : M S unit) : M S unit :=
  if b then m else ret tt.

(** ** Python dicts *)

Section dict.
Context {K V : Type} `{EqDecision K}.

Definition dict : Type := list (K * V).

Fixpoint dict_get (k : K) (d : dict) : option V :=
  match d with
  | [] => None
  | (k', v) :: d' => if decide (k' = k) then Some v else dict_get k d'
  end.

(** [d[k] = v] *)
Fixpoint dict_set (k : K) (v : V) (d : dict) : dict :=
  match d with
  | [] => [(k, v)]
  | (k', v') :: d' =>
      if decide (k' = k) then (k, v) :: d' else (k', v') :: dict_set k v d'
  end.

(** [k in d] *)
Definition dict_mem (k : K) (d : dict) : bool := bool_decide (is_Some (dict_get k d)).

Definition dict_keys (d : dict) : list K := d.*1.
Definition dict_values (d : dict) : list V := d.*2.

(** [not d] *)
Definition dict_is_empty (d : dict) : bool :=
  match d with [] => true | _ => false end.
End dict.
Arguments dict : clear implicits.

(** ** The entities of the structure hierarchy *)

(** A residue id: (hetero flag, sequence number, insertion code). *)
Definition res_id_t : Type := string * Z * string.
#[global] Instance res_id_eq_dec : EqDecision res_id_t.
Proof. unfold res_id_t. apply _. Defined.

#[global] Instance Q_eq_dec : EqDecision Q.
Proof. solve_decision. Defined.

Module Atom.
Record t : Type := mk {
  uid : nat;            (* identity of the object *)
  name : string;        (* the atom's id, such as CA *)
  element : string;
  coord : Q * Q * Q
}.
#[global] Instance eq_dec : EqDecision t.
Proof. solve_decision. Defined.
End Atom.

Module Residue.
Record t : Type := mk {
  uid : nat;            (* identity of the object *)
  parent_id : string;   (* [r.parent.id], the id of the owning chain *)
  id : res_id_t;
  resname : string;
  child_list : list Atom.t
}.
#[global] Instance eq_dec : EqDecision t.
Proof. solve_decision. Defined.

(** Modelled from the spec: [Entity.__getitem__] (not among the sources),
    the child with the given id, here the atom called [name]; a missing id
    is the KeyError of the lookup. *)
Definition getitem (r : t) (name : string) : result Atom.t :=
  from_option KeyError (List.find (λ a, bool_decide (Atom.name a = name)) (child_list r)).
End Residue.

Module Chain.
Record t : Type := mk {
  id : string;
  child_list : list Residue.t
}.
#[global] Instance eq_dec : EqDecision t.
Proof. solve_decision. Defined.
End Chain.

(** A model is the list of its chains; a structure the list of its models. *)
Definition Model : Type := list Chain.t.
Definition Structure : Type := list Model.

(** Modelled from the spec: [Entity.__getitem__] again, the chain of a
    model by its id. *)
Definition Model_getitem (m : Model) (c : string) : result Chain.t :=
  from_option KeyError (List.find (λ ch, bool_decide (Chain.id ch = c)) m).

(** ** The Interface class *)

Module Interface.

(** The contact map: chain id -> residue -> list of partner residues. *)
Definition neighbors_t : Type := dict string (dict Residue.t (list Residue.t)).

Record t : Type := mk {
  level : string;
  id : string;
  child_list : list Residue.t;                    (* Entity.child_list *)
  child_dict : dict string (list Residue.t);      (* chain id -> residues *)
  neighbors : neighbors_t;
  uniq_pairs : list (Residue.t * Residue.t);
  neighbors_id : dict res_id_t (list Z);          (* set by _get_neighbors_id *)
  model : option Model                            (* set by the builder, if at all *)
}.

Definition with_child_list (v : list Residue.t) (s : t) : t :=
  mk (level s) (id s) v (child_dict s) (neighbors s) (uniq_pairs s)
     (neighbors_id s) (model s).
Definition with_child_dict (v : dict string (list Residue.t)) (s : t) : t :=
  mk (level s) (id s) (child_list s) v (neighbors s) (uniq_pairs s)
     (neighbors_id s) (model s).
Definition with_neighbors (v : neighbors_t) (s : t) : t :=
  mk (level s) (id s) (child_list s) (child_dict s) v (uniq_pairs s)
     (neighbors_id s) (model s).
Definition with_neighbors_id (v : dict res_id_t (list Z)) (s : t) : t :=
  mk (level s) (id s) (child_list s) (child_dict s) (neighbors s)
     (uniq_pairs s) v (model s).

(** [Interface(id)], lines 28-34. *)
Definition init (id : string) : t := mk "I" id [] [] [] [] [] None.

(** Modelled from the spec: [Entity.get_id], [Entity.__len__] and
    [Entity.__iter__] (Bio/PDB/Entity.py is not among the sources): an
    entity has an identifier, and an Interface an ordered sequence of
    member residues, which is what its length and iteration range over. *)
Definition get_id (entity : Residue.t) : res_id_t := Residue.id entity.
Definition len (self : t) : Z := Z.of_nat (length (child_list self)).
Definition iter (self : t) : list Residue.t := child_list self.

(** [float(n)] of an int. *)
Definition float (n : Z) : Q := inject_Z n.

(** *** add, lines 44-53

    [Entity.has_id] is inherited from a class that is not among the
    sources; [add] is parametric in it. *)
Section add.
Variable has_id : t → res_id_t → bool.

Definition add (entity : Residue.t) : M t unit :=
  let entity_id := get_id entity in
  self ← get;
  if negb (has_id self entity_id) then
    modify (λ s, with_child_list (child_list s ++ [entity]) s);;
    self ← get;
    when (negb (dict_mem (Residue.parent_id entity) (child_dict self)))
      (modify (λ s, with_child_dict
                      (dict_set (Residue.parent_id entity) [] (child_dict s)) s));;
    self ← get;
    l ← lift (from_option KeyError
                (dict_get (Residue.parent_id entity) (child_dict self)));
    modify (λ s, with_child_dict
                   (dict_set (Residue.parent_id entity) (l ++ [entity]) (child_dict s)) s)
  else ret tt.
End add.

(** *** get_chains, lines 55-58: the keys of [child_dict], in its order. *)
Definition get_chains (self : t) : list string := dict_keys (child_dict self).

(** *** set_neighbors, lines 60-81 *)

(** Lines 69-73, the first residue of a pair. *)
Definition note_first (resA resB : Residue.t) : M t unit :=
  self ← get;
  d ← lift (from_option KeyError (dict_get (Residue.parent_id resA) (neighbors self)));
  match dict_get resA d with
  | None =>
      (* neighbors[chain][resA] = []; neighbors[chain][resA].append(resB) *)
      modify (λ s, with_neighbors
        (dict_set (Residue.parent_id resA) (dict_set resA [resB] d) (neighbors s)) s)
  | Some l =>
      if bool_decide (resB ∈ l) then ret tt
      else modify (λ s, with_neighbors
        (dict_set (Residue.parent_id resA) (dict_set resA (l ++ [resB]) d) (neighbors s)) s)
  end.

(** Lines 75-79, the second residue of a pair. On the first encounter of
    [resB], line 77 appends [resB] itself. *)
Definition note_second (resA resB : Residue.t) : M t unit :=
  self ← get;
  d ← lift (from_option KeyError (dict_get (Residue.parent_id resB) (neighbors self)));
  match dict_get resB d with
  | None =>
      (* neighbors[chain][resB] = []; neighbors[chain][resB].append(resB) *)
      modify (λ s, with_neighbors
        (dict_set (Residue.parent_id resB) (dict_set resB [resB] d) (neighbors s)) s)
  | Some l =>
      if bool_decide (resA ∈ l) then ret tt
      else modify (λ s, with_neighbors
        (dict_set (Residue.parent_id resB) (dict_set resB (l ++ [resA]) d) (neighbors s)) s)
  end.

Definition set_neighbors : M t neighbors_t :=
  self ← get;
  for_each (get_chains self)
    (λ c, modify (λ s, with_neighbors (dict_set c [] (neighbors s)) s));;
  for_each (uniq_pairs self)
    (λ '(resA, resB), note_first resA resB;; note_second resA resB);;
  gets neighbors.

(** *** calculate_percentage, lines 83-105

    The property tables of [Bio.Data.IUPACData] and [Bio.SCOP.Raf] are not
    among the sources; they are parameters, each a dict. The entry of
    [protein_pka_side_chain] is kept as its truth value, the only use
    line 94 makes of it. The [print] of line 100 is left out. *)
Section tables.
Variable to_one_letter_code : dict string string.
Variable protein_polarity : dict string (list string).
Variable protein_pka_side_chain : dict string bool.

(** One turn of the loop, lines 92-99, on the counters
    (polar, apolar, charged). *)
Definition count_residue (counts : Z * Z * Z) (r : Residue.t) : result (Z * Z * Z) :=
  let '(polar, apolar, charged) := counts in
  res ← from_option KeyError (dict_get (Residue.resname r) to_one_letter_code);
  polar_codes ← from_option KeyError (dict_get "polar" protein_polarity);
  if bool_decide (res ∈ polar_codes) then
    is_charged ← from_option KeyError (dict_get res protein_pka_side_chain);
    if is_charged : bool then Ok (polar, apolar, charged + 1)
    else Ok (polar + 1, apolar, charged)
  else Ok (polar, apolar + 1, charged).

Fixpoint count_residues (counts : Z * Z * Z) (l : list Residue.t) : result (Z * Z * Z) :=
  match l with
  | [] => Ok counts
  | r :: l' => counts' ← count_residue counts r; count_residues counts' l'
  end.

(** [float(n)/d], a true division. *)
Definition float_div (n d : Z) : result Q :=
  if decide (d = 0) then Raise ZeroDivisionError
  else Ok (float n / inject_Z d)%Q.

Definition calculate_percentage (self : t) : result (list Q) :=
  '(polar, apolar, charged) ← count_residues (0, 0, 0) (iter self);
  polar_percentage ← float_div polar (len self);
  apolar_percentage ← float_div apolar (len self);
  charged_percentage ← float_div charged (len self);
  Ok [polar_percentage; apolar_percentage; charged_percentage].
End tables.

(** *** _get_atomic_SASA and calculate_BSA, lines 107-152 *)

(** What lives outside the Interface: the [xtra] annotation
    [EXP_NACCESS] of each atom object (by [uid]; atoms are shared between
    the complex and the one-chain structures built from it), and the
    models handed to the surface-area program so far. *)
Record world : Type := mk_world {
  xtra : gmap nat Q;
  submitted : list Model
}.

(** The names bound in the namespace of the module: the imports of lines
    8-18 and the class. The functions defined by the class statement are
    bound in the namespace of the class, which the body of a method does
    not search. *)
Definition module_globals : list string :=
  ["Entity"; "IUPACData"; "to_one_letter_code"; "PDBParser"; "NACCESS";
   "NACCESS_atomic"; "Model"; "Structure"; "Superimposer"; "DSSP"; "numpy";
   "Interface"].

Definition class_namespace : list string :=
  ["__init__"; "add"; "get_chains"; "set_neighbors"; "calculate_percentage";
   "_get_atomic_SASA"; "calculate_BSA"; "_get_atoms_coords"; "rmsd";
   "_get_neighbors_id"; "fcc"].

(** Loading a global name that, if bound, holds [value]. *)
Definition load_global {A} (name : string) (value : A) : result A :=
  if bool_decide (name ∈ module_globals) then Ok value
  else Raise (NameError name).

(** Loading a local name from the variables of the frame. *)
Definition load_local {A} (name : string) (frame : dict string A) : result A :=
  from_option (NameError name) (dict_get name frame).

(** An argument that has [get_atoms]. *)
Inductive entity : Type :=
  | AModel (m : Model)
  | AStructure (s : Structure).

(** The atoms of an entity, each with its parent residue. *)
Definition Model_get_atoms (m : Model) : list (Residue.t * Atom.t) :=
  ch ← m; r ← Chain.child_list ch; a ← Residue.child_list r; [(r, a)].

Definition get_atoms (e : entity) : list (Residue.t * Atom.t) :=
  match e with
  | AModel m => Model_get_atoms m
  | AStructure s => m ← s; Model_get_atoms m
  end.

(** The filter of line 117:
    [at.get_parent().id[0] == " " and at.element != 'H']. *)
Definition counted (ra : Residue.t * Atom.t) : bool :=
  bool_decide ((Residue.id ra.1).1.1 = " ") && negb (bool_decide (Atom.element ra.2 = "H")).

Definition _get_atomic_SASA (structure : entity) : M world Q :=
  w ← get;
  sasa_l ← lift (result_map
                   (λ ra, from_option KeyError (xtra w !! Atom.uid ra.2))
                   (List.filter counted (get_atoms structure)));
  (* line 118 reads sas_l; the frame holds structure and sasa_l *)
  let frame : dict string (list Q) := [("sasa_l", sasa_l)] in
  sas_l ← lift (load_local "sas_l" frame);
  let sasa := foldr Qplus 0%Q sas_l in
  mret sasa.

Section naccess.
(** Modelled from the spec: the accessible-surface-area service
    ([Bio.PDB.NACCESS] is not among the sources), which given a
    structure or substructure, annotates every relevant atom with a
    computed exposed-surface-area value and may fail. [naccess] is the
    run of the program on a model: the area of each atom (by [uid]), or
    [None] when it fails. *)
Variable naccess : Model → option (list (nat * Q)).

Definition NACCESS_atomic (m : Model) : M world unit :=
  modify (λ w, mk_world (xtra w) (submitted w ++ [m]));;
  asa ← lift (from_option ServiceError (naccess m));
  modify (λ w, mk_world (foldl (λ x '(uid, a), <[uid := a]> x) (xtra w) asa)
                        (submitted w)).

Definition calculate_BSA (self : t) : M world (list Q) :=
  let chains := get_chains self in
  (* mA.add(self.model[chains[0]]) *)
  model_ ← lift (from_option (AttributeError "model") (model self));
  c0 ← lift (from_option IndexError (chains !! 0%nat));
  chain_A ← lift (Model_getitem model_ c0);
  let mA : Model := [chain_A] in
  (* mB.add(self.model[chains[1]]) *)
  model_ ← lift (from_option (AttributeError "model") (model self));
  c1 ← lift (from_option IndexError (chains !! 1%nat));
  chain_B ← lift (Model_getitem model_ c1);
  let mB : Model := [chain_B] in
  let structure_A : Structure := [mA] in
  let structure_B : Structure := [mB] in
  (* Calculate SASAs *)
  NACCESS_atomic model_;;
  NACCESS_atomic mA;;
  NACCESS_atomic mB;;
  f ← lift (load_global "_get_atomic_SASA" _get_atomic_SASA);
  sas_tot ← f (AModel model_);
  f ← lift (load_global "_get_atomic_SASA" _get_atomic_SASA);
  sas_A ← f (AStructure structure_A);
  f ← lift (load_global "_get_atomic_SASA" _get_atomic_SASA);
  sas_B ← f (AStructure structure_B);
  let bsa := (sas_A + sas_B - sas_tot)%Q in
  mret [bsa; sas_A; sas_B; sas_tot].
End naccess.

(** *** rmsd, lines 154-189

    [to_one_letter_code] is the table of above. [Superimposer] is an
    external collaborator: [superimposer_rms] is the [rms] it holds after
    [set_atoms], [None] when it raises. The [print]s of lines 174, 175 and
    187 are left out. *)
Section rmsd.
Variable to_one_letter_code : dict string string.
Variable superimposer_rms : list Atom.t → list Atom.t → option Q.

(** [zip(a, b)] *)
Fixpoint zip {A B} (a : list A) (b : list B) : list (A * B) :=
  match a, b with
  | x :: a', y :: b' => (x, y) :: zip a' b'
  | _, _ => []
  end.

Definition _get_atoms_coords (self interface : t) (opt : string)
    : result (list Atom.t * list Atom.t) :=
  foldl (λ acc '(ref_res, alt_res),
           '(ref_atoms, alt_atoms) ← acc;
           ref_ca ← Residue.getitem ref_res "CA";
           alt_ca ← Residue.getitem alt_res "CA";
           Ok (ref_atoms ++ [ref_ca], alt_atoms ++ [alt_ca]))
        (Ok ([], [])) (zip (child_list self) (child_list interface)).

(** The order of [list.sort] on [str]: by character codes. *)
Definition str_le (a b : string) : Prop := String.leb a b = true.
#[global] Instance str_le_dec a b : Decision (str_le a b).
Proof. unfold str_le. apply _. Defined.

(** [[to_one_letter_code[r.resname] for r in self.child_list]] *)
Definition one_letter_seq (self : t) : result (list string) :=
  result_map (λ r, from_option KeyError
                     (dict_get (Residue.resname r) to_one_letter_code))
             (child_list self).

(** Lines 179-189. *)
Definition superimpose (self mobile : t) : result Q :=
  '(ref_atoms, alt_atoms) ← _get_atoms_coords self mobile "ca";
  from_option ServiceError (superimposer_rms ref_atoms alt_atoms).

(** [mob_ref] is used for its truth value only; [None] is the default. *)
Definition truthy (mob_ref : option bool) : bool := default false mob_ref.

Definition rmsd (self mobile : t) (mob_ref : option bool) : result Q :=
  (if negb (truthy mob_ref) then
     ref_seq ← one_letter_seq self;
     alt_seq ← one_letter_seq mobile;
     let ref_seq := merge_sort str_le ref_seq in
     let alt_seq := merge_sort str_le alt_seq in
     if bool_decide (ref_seq ≠ alt_seq)
     then Raise (ValueError "Sequences doesn't match")
     else Ok tt
   else Ok tt);;
  superimpose self mobile.
End rmsd.

(** *** _get_neighbors_id, lines 191-198 *)

(** [res.id[1]], the sequence number of a residue. *)
Definition seqnum (res : Residue.t) : Z := (Residue.id res).1.2.

Definition _get_neighbors_id (chain : string) : M t unit :=
  modify (with_neighbors_id []);;
  self ← get;
  d ← lift (from_option KeyError (dict_get chain (neighbors self)));
  for_each d (λ '(key, partners),
    modify (λ s, with_neighbors_id
      (dict_set (Residue.id key) (merge_sort Z.le (seqnum <$> partners))
                (neighbors_id s)) s)).

(** *** fcc, lines 200-226

    [self] and [mobile] are references into a store of Interface objects:
    they may be the same object. *)

Abbreviation ref := nat.
Abbreviation heap := (gmap nat t).

#[global] Instance t_inhabited : Inhabited t := populate (init "").

(** Run a method on the object at [l]. *)
Definition on {A} (l : ref) (m : M t A) : M heap A :=
  λ h, let '(r, s') := m (h !!! l) in (r, <[l := s']> h).

(** Line 217: [sum(len(l) for l in self.neighbors_id.itervalues())]. *)
Definition total_contacts (ids : dict res_id_t (list Z)) : Z :=
  foldr Z.add 0 ((λ l, Z.of_nat (length l)) <$> dict_values ids).

(** Lines 220-223. *)
Definition common_contacts (ids mobile_ids : dict res_id_t (list Z)) : Z :=
  foldl (λ common '(res_id, l),
           match dict_get res_id mobile_ids with
           | Some l' =>
               common + Z.of_nat (size (list_to_set l ∩ list_to_set l' : gset Z))
           | None => common
           end) 0 ids.

(** Lines 203-214: both contact maps, the chain, both id maps. *)
Definition fcc_prepare (self mobile : ref) : M heap unit :=
  s ← gets (λ h, h !!! self);
  when (dict_is_empty (neighbors s)) (on self set_neighbors;; mret tt);;
  m ← gets (λ h, h !!! mobile);
  when (dict_is_empty (neighbors m)) (on mobile set_neighbors;; mret tt);;
  (* for c in self.get_chains(): chain = c; break *)
  s ← gets (λ h, h !!! self);
  chain ← lift (from_option (NameError "chain") (head (get_chains s)));
  on self (_get_neighbors_id chain);;
  on mobile (_get_neighbors_id chain).

(** Lines 216-226. *)
Definition fcc (self mobile : ref) : M heap Q :=
  fcc_prepare self mobile;;
  s ← gets (λ h, h !!! self);
  m ← gets (λ h, h !!! mobile);
  let total := total_contacts (neighbors_id s) in
  let common := common_contacts (neighbors_id s) (neighbors_id m) in
  (* float(common/total), / on two ints *)
  if decide (total = 0) then raise ZeroDivisionError
  else mret (float (common `div` total)).

End Interface.

(** ** Sample residues and interfaces *)

Definition std_res (uid : nat) (chain : string) (num : Z) (icode : string)
    (resname : string) : Residue.t :=
  Residue.mk uid chain (" ", num, icode) resname
    [Atom.mk (2 * uid) "N" "N" (0, 0, 0)%Q;
     Atom.mk (2 * uid + 1) "CA" "C" (inject_Z num, 0, 0)%Q].

Definition A10 := std_res 1 "A" 10 " " "ALA".
Definition A11 := std_res 2 "A" 11 " " "SER".
Definition B20 := std_res 3 "B" 20 " " "ASP".
Definition B21 := std_res 4 "B" 21 " " "LEU".

(** A fresh Interface with the given residues by chain and raw pairs. *)
Definition iface_of (chains : list (string * list Residue.t))
    (pairs : list (Residue.t * Residue.t)) : Interface.t :=
  Interface.mk "I" "iface" (mjoin chains.*2) chains [] pairs [] None.

(** The scenario of the specification. *)
Definition reference : Interface.t :=
  iface_of [("A", [A10; A11]); ("B", [B20; B21])] [(A10, B20); (A10, B21); (A11, B20)].
Definition mobile : Interface.t :=
  iface_of [("A", [A10; A11]); ("B", [B20; B21])] [(A10, B20)].
Definition reference_BA : Interface.t :=
  iface_of [("B", [B20; B21]); ("A", [A10; A11])] [(A10, B20); (A10, B21); (A11, B20)].
Definition mobile_BA : Interface.t :=
  iface_of [("B", [B20; B21]); ("A", [A10; A11])] [(A10, B20)].

Definition heap2 (a b : Interface.t) : Interface.heap := <[1%nat := b]> (<[0%nat := a]> ∅).

(** A complex of three chains, every atom a heavy atom of a standard
    residue, and a surface-area program that gives every atom it is shown
    the area 1 when it sees one chain and 1/2 when it sees more. *)
Definition C30 := std_res 5 "C" 30 " " "GLY".

Definition complex : Model :=
  [Chain.mk "A" [A10; A11]; Chain.mk "B" [B20; B21]; Chain.mk "C" [C30]].

Definition naccess_stub (m : Model) : option (list (nat * Q)) :=
  Some ((λ ra : Residue.t * Atom.t,
           (Atom.uid ra.2, if decide (length m = 1%nat) then 1%Q else (1 # 2)%Q))
        <$> Interface.Model_get_atoms m).

Definition with_model (m : Model) (s : Interface.t) : Interface.t :=
  Interface.mk (Interface.level s) (Interface.id s) (Interface.child_list s)
    (Interface.child_dict s) (Interface.neighbors s) (Interface.uniq_pairs s)
    (Interface.neighbors_id s) (Some m).

Definition iface_A : Interface.t := with_model complex (iface_of [("A", [A10])] []).
Definition iface_AB : Interface.t :=
  with_model complex (iface_of [("A", [A10]); ("B", [B20])] [(A10, B20)]).
Definition iface_ABC : Interface.t :=
  with_model complex
    (iface_of [("A", [A10]); ("B", [B20]); ("C", [C30])] [(A10, B20); (B20, C30)]).

Definition world0 : Interface.world := Interface.mk_world ∅ [].



(** The usual three-letter codes, the polar ones among the one-letter codes
    and which of these carry a charge: sample tables. *)
Definition sample_codes : dict string string :=
  [("ALA", "A"); ("SER", "S"); ("ASP", "D"); ("LEU", "L"); ("GLY", "G");
   ("LYS", "K"); ("THR", "T")].
Definition sample_polarity : dict string (list string) :=
  [("polar", ["S"; "D"; "K"; "T"]); ("apolar", ["A"; "L"; "G"])].
Definition sample_pka : dict string bool :=
  [("S", false); ("T", false); ("D", true); ("K", true)].

(** A stand-in for the superposition: it accepts lists of equal length. *)
Definition sample_rms (ref_atoms alt_atoms : list Atom.t) : option Q :=
  if decide (length ref_atoms = length alt_atoms) then Some 0%Q else None.

(** The three classes of the composition, and the class of a residue as
    the specification words it: by its one-letter code, polar codes with a
    charge counting as charged. *)
Inductive residue_class : Type := Polar | Apolar | Charged.
#[global] Instance residue_class_eq_dec : EqDecision residue_class.
Proof. solve_decision. Defined.

Definition class_of (codes : dict string string) (polar_codes : list string)
    (pka : dict string bool) (r : Residue.t) : option residue_class :=
  code ← dict_get (Residue.resname r) codes;
  if bool_decide (code ∈ polar_codes) then
    is_charged ← dict_get code pka;
    Some (if is_charged : bool then Charged else Polar)
  else Some Apolar.

Definition class_count (codes : dict string string) (polar_codes : list string)
    (pka : dict string bool) (cls : residue_class) (l : list Residue.t) : Z :=
  Z.of_nat (length (List.filter (λ r, bool_decide (class_of codes polar_codes pka r = Some cls)) l)).



(** An Interface of two chains and no raw pair. *)
Definition no_contacts : Interface.t := iface_of [("A", [A10]); ("B", [B20])] [].

Definition heap1 (a : Interface.t) : Interface.heap := <[0%nat := a]> ∅.

(** The raw pairs of an Interface stay within its chains. *)
Definition pairs_within_chains (s : Interface.t) : Prop :=
  Forall (λ ab : Residue.t * Residue.t,
            Residue.parent_id ab.1 ∈ Interface.get_chains s
            ∧ Residue.parent_id ab.2 ∈ Interface.get_chains s)
         (Interface.uniq_pairs s).

(** The contact map has an entry for each of the chains. *)
Definition covers (chains : list string) (s : Interface.t) : Prop :=
  ∀ c, c ∈ chains → is_Some (dict_get c (Interface.neighbors s)).

(** What the loops of [set_neighbors] keep: the chains and raw pairs of
    the Interface, and an entry of the contact map for each chain. *)
Definition kept (s0 s : Interface.t) : Prop :=
  Interface.child_dict s = Interface.child_dict s0
  ∧ Interface.uniq_pairs s = Interface.uniq_pairs s0
  ∧ covers (Interface.get_chains s0) s.

(** An Interface is ready for [fcc] on chain [c]: its contact map is still
    to be built, from raw pairs that stay within its chains, [c] among
    them; or it is built already and has an entry for [c]. *)
Definition ready (c : string) (s : Interface.t) : Prop :=
  (Interface.neighbors s = [] ∧ pairs_within_chains s ∧ c ∈ Interface.get_chains s)
  ∨ is_Some (dict_get c (Interface.neighbors s)).

(** Lines 204-205 (and 206-207): the contact map, built on demand. *)
Definition ensure_neighbors (l : Interface.ref) : M Interface.heap unit :=
  s ← gets (λ h, h !!! l);
  when (dict_is_empty (Interface.neighbors s))
       (Interface.on l Interface.set_neighbors;; mret tt).

(** Is [b] in the partner list of [a], under the chain key of [a]? *)
Definition is_partner (n : Interface.neighbors_t) (a b : Residue.t) : bool :=
  match dict_get (Residue.parent_id a) n with
  | Some d =>
      match dict_get a d with
      | Some l => bool_decide (b ∈ l)
      | None => false
      end
  | None => false
  end.

Definition symmetric_map (n : Interface.neighbors_t) : Prop :=
  ∀ a b, is_partner n a b = is_partner n b a.

(** ** The contact map as a function of the raw pairs *)

(** [n[c][r]], when both keys are there. *)
Definition partners (n : Interface.neighbors_t) (c : string) (r : Residue.t)
    : option (list Residue.t) :=
  d ← dict_get c n; dict_get r d.

(** Lines 63-64 on the map alone. *)
Definition reset_chains (chains : list string) (n : Interface.neighbors_t)
    : Interface.neighbors_t :=
  foldl (λ n c, dict_set c [] n) n chains.

(** Lines 69-73 and 75-79 on the map alone: the entry of [key] is created
    holding [first], or extended by [partner] when it lacks it; [None] when
    the chain of [key] has no entry. *)
Definition note (key first partner : Residue.t) (n : Interface.neighbors_t)
    : option Interface.neighbors_t :=
  d ← dict_get (Residue.parent_id key) n;
  Some match dict_get key d with
       | None => dict_set (Residue.parent_id key) (dict_set key [first] d) n
       | Some l =>
           if bool_decide (partner ∈ l) then n
           else dict_set (Residue.parent_id key) (dict_set key (l ++ [partner]) d) n
       end.

(** Lines 66-79 on the map alone; the map reached is returned with the
    outcome. *)
Fixpoint note_pairs (pairs : list (Residue.t * Residue.t)) (n : Interface.neighbors_t)
    : result unit * Interface.neighbors_t :=
  match pairs with
  | [] => (Ok tt, n)
  | (resA, resB) :: pairs' =>
      match note resA resB resB n with
      | None => (Raise KeyError, n)
      | Some n1 =>
          match note resB resB resA n1 with
          | None => (Raise KeyError, n1)
          | Some n2 => note_pairs pairs' n2
          end
      end
  end.

(** The residues that occur in a list of pairs. *)
Definition residues_of (pairs : list (Residue.t * Residue.t)) : list Residue.t :=
  pairs.*1 ++ pairs.*2.

(** The entry [note] writes, given the entry it finds. *)
Definition noted (first partner : Residue.t) (old : option (list Residue.t))
    : list Residue.t :=
  match old with
  | None => [first]
  | Some l => if bool_decide (partner ∈ l) then l else l ++ [partner]
  end.

(** The contact map holds no chain that the Interface lacks. *)
Definition no_stale_chain (s : Interface.t) : Prop :=
  Forall (λ c, c ∈ Interface.get_chains s) (dict_keys (Interface.neighbors s)).

(** Two maps with the same keys, in the same order, and the same entries
    for the chains of [C]. *)
Definition agree (C : list string) (m m' : Interface.neighbors_t) : Prop :=
  Forall2 (λ kv kv' : string * dict Residue.t (list Residue.t),
             kv.1 = kv'.1 ∧ (kv.1 ∈ C → kv.2 = kv'.2)) m m'.

(** ** The id map as a function of the partner lists of a chain *)

(** Lines 197-198 for one residue: its id and the sorted sequence numbers
    of its partners. *)
Definition id_entry (kl : Residue.t * list Residue.t) : res_id_t * list Z :=
  (Residue.id kl.1, merge_sort Z.le (Interface.seqnum <$> kl.2)).

(** Lines 196-198 on the dict of a chain. *)
Definition ids_of (d : dict Residue.t (list Residue.t)) : dict res_id_t (list Z) :=
  foldl (λ ids kl, dict_set (id_entry kl).1 (id_entry kl).2 ids) [] d.

(** ** What [fcc] leaves of the store *)

(** Two Interfaces that differ in the contact map and the id map at most. *)
Definition only_maps_differ (s s' : Interface.t) : Prop :=
  ∃ n ids, s' = Interface.with_neighbors n (Interface.with_neighbors_id ids s).

(** A computation on the store that changes, of every Interface, the
    contact map and the id map at most. *)
Definition frames {A} (m : M Interface.heap A) : Prop :=
  ∀ (h : Interface.heap) (l : Interface.ref),
    only_maps_differ (h !!! l) ((m h).2 !!! l).

(** The contact map of an Interface is there or can be built: it is not
    empty, or the raw pairs stay within the chains. *)
Definition can_ensure (s : Interface.t) : Prop :=
  dict_is_empty (Interface.neighbors s) = false ∨ pairs_within_chains s.

(** The contact map of an Interface is there, or will be once built,
    without an entry for chain [c]. *)
Definition lacks_chain (c : string) (s : Interface.t) : Prop :=
  (Interface.neighbors s = [] ∧ pairs_within_chains s ∧ c ∉ Interface.get_chains s)
  ∨ (dict_is_empty (Interface.neighbors s) = false
     ∧ dict_get c (Interface.neighbors s) = None).

(** The id map of an Interface is the one of chain [c] of its contact map. *)
Definition settled (c : string) (s : Interface.t) : Prop :=
  ∃ d, dict_get c (Interface.neighbors s) = Some d ∧ Interface.neighbors_id s = ids_of d.

(** ** Residues with and without a class *)

(** A residue can be counted by [calculate_percentage]: the polarity table
    has its entry of polar codes, and with it the residue has a class. *)
Definition classified (codes : dict string string) (polarity : dict string (list string))
    (pka : dict string bool) (r : Residue.t) : Prop :=
  ∃ polar_codes, dict_get "polar" polarity = Some polar_codes
                 ∧ is_Some (class_of codes polar_codes pka r).

(** An Interface with a residue whose name the sample code table lacks. *)
Definition unnamed : Interface.t :=
  iface_of [("A", [std_res 9 "A" 12 " " "HOH"])] [].

(** ** The residues by chain *)

(** The residues of chain [c] among [l], in the order of [l]. *)
Definition chain_members (c : string) (l : list Residue.t) : list Residue.t :=
  List.filter (λ r, bool_decide (Residue.parent_id r = c)) l.

(** [child_dict] lists [child_list] by chain: each chain with a residue in
    [child_list] has one entry, the residues of the chain in the order of
    [child_list], and no other chain has an entry. *)
Definition grouped (s : Interface.t) : Prop :=
  NoDup (Interface.get_chains s)
  ∧ ∀ c, dict_get c (Interface.child_dict s)
         = if decide (chain_members c (Interface.child_list s) = []) then None
           else Some (chain_members c (Interface.child_list s)).

(** * Properties *)

(** ** Dicts *)

Section dict_facts.
Context {K V : Type} `{EqDecision K}.
Implicit Types (d : dict K V) (k : K) (v : V).

Lemma dict_get_set_eq d k v : dict_get k (dict_set k v d) = Some v.
Proof.
  induction d as [|[k' v'] d IH]; simpl.
  - by rewrite decide_True.
  - destruct (decide (k' = k)) as [->|Hne]; simpl.
    + by rewrite decide_True.
    + by rewrite decide_False.
Qed.

Lemma dict_get_set_ne d k k' v : k ≠ k' → dict_get k' (dict_set k v d) = dict_get k' d.
Proof.
  intros Hne. induction d as [|[k0 v0] d IH]; simpl.
  - by rewrite decide_False.
  - destruct (decide (k0 = k)) as [->|Hne0]; simpl.
    + by rewrite !decide_False.
    + by rewrite IH.
Qed.

Lemma dict_get_set_is_Some d k v k' :
  is_Some (dict_get k' d) → is_Some (dict_get k' (dict_set k v d)).
Proof.
  intros Hk'. destruct (decide (k = k')) as [->|Hne].
  - rewrite dict_get_set_eq. eauto.
  - by rewrite dict_get_set_ne.
Qed.


Lemma dict_set_keys d k v :
  dict_keys (dict_set k v d)
  = if bool_decide (k ∈ dict_keys d) then dict_keys d else dict_keys d ++ [k].
Proof.
  unfold dict_keys. induction d as [|[k' v'] d IH]; [done|].
  cbn [dict_set]. destruct (decide (k' = k)) as [->|Hne]; rewrite !fmap_cons; cbn [fst].
  - rewrite bool_decide_eq_true_2; [done|apply list_elem_of_here].
  - rewrite IH. case_bool_decide as Hin.
    + rewrite bool_decide_eq_true_2; [done|by apply list_elem_of_further].
    + rewrite bool_decide_eq_false_2; [done|].
      rewrite elem_of_cons. intros [->|?]; done.
Qed.

Lemma dict_set_keys_NoDup d k v : NoDup (dict_keys d) → NoDup (dict_keys (dict_set k v d)).
Proof.
  intros Hnd. rewrite dict_set_keys. case_bool_decide as Hin; [done|].
  apply NoDup_app. split; [done|]. split; [|apply NoDup_singleton].
  intros x Hx ->%list_elem_of_singleton. done.
Qed.

Lemma dict_mem_true d k : dict_mem k d = true ↔ is_Some (dict_get k d).
Proof. unfold dict_mem. apply bool_decide_eq_true. Qed.
End dict_facts.

(** ** The monad *)

Ltac unfold_M :=
  unfold mbind, mret, M_bind, M_ret, result_mbind, result_ret, bind, ret,
    result_bind, lift, raise, get, gets, put, modify, when in *.

Lemma bind_Ok_inv {S A B} (m : M S A) (k : A → M S B) s b s2 :
  (m ≫= k) s = (Ok b, s2) → ∃ a s1, m s = (Ok a, s1) ∧ k a s1 = (Ok b, s2).
Proof.
  unfold_M. destruct (m s) as [[a|e] s1]; [eauto|discriminate].
Qed.

Lemma for_each_modify {S A} (body : A → M S unit) (f : A → S → S) (l : list A) (s : S) :
  (∀ x s, body x s = (Ok tt, f x s)) →
  for_each l body s = (Ok tt, foldl (λ s x, f x s) s l).
Proof.
  intros Hbody. revert s. induction l as [|x l IH]; intros s; simpl; [done|].
  unfold_M. rewrite Hbody. apply IH.
Qed.

Lemma for_each_invariant {S A} (P : S → Prop) (body : A → M S unit) (l : list A) (s : S) :
  (∀ x s, x ∈ l → P s → ∃ s', body x s = (Ok tt, s') ∧ P s') →
  P s → ∃ s', for_each l body s = (Ok tt, s') ∧ P s'.
Proof.
  revert s. induction l as [|x l IH]; intros s Hbody Hs; simpl; [eauto|].
  destruct (Hbody x s) as (s1 & Hx & Hs1); [apply list_elem_of_here|done|].
  unfold_M. rewrite Hx. apply IH; [|done].
  intros y s2 Hy. apply Hbody. by apply list_elem_of_further.
Qed.

(** ** add *)







(** ** set_neighbors *)

(** The first loop of [set_neighbors], on a fresh Interface: every chain
    gets an empty entry. *)
Lemma init_chains_empty (chains : list string) (n : Interface.neighbors_t) c :
  c ∈ chains ∨ dict_get c n = Some [] →
  dict_get c (foldl (λ n c, dict_set c [] n) n chains) = Some [].
Proof.
  revert n. induction chains as [|c' chains IH]; intros n Hc; simpl.
  - destruct Hc as [[]%elem_of_nil|]; done.
  - apply IH. destruct Hc as [[->|Hc]%elem_of_cons|Hc]; [right|by left|right].
    + apply dict_get_set_eq.
    + destruct (decide (c' = c)) as [->|Hne]; [apply dict_get_set_eq|].
      by rewrite dict_get_set_ne.
Qed.

(** On any fresh Interface with a single raw pair of two residues of its
    chains, the second residue is a partner of the first and the first is
    no partner of the second. *)
Lemma set_neighbors_single_pair chains a b :
  a ≠ b →
  Residue.parent_id a ∈ chains.*1 → Residue.parent_id b ∈ chains.*1 →
  ∃ n, (Interface.set_neighbors (iface_of chains [(a, b)])).1 = Ok n
       ∧ is_partner n a b = true ∧ is_partner n b a = false.
Proof.
  intros Hab Ha Hb. unfold Interface.set_neighbors.
  unfold mbind at 1 2; unfold M_bind, bind, get.
  erewrite (for_each_modify _ (λ c s, Interface.with_neighbors
                                 (dict_set c [] (Interface.neighbors s)) s));
    [|done].
  assert (Hfold : ∀ l s,
    foldl (λ s c, Interface.with_neighbors (dict_set c [] (Interface.neighbors s)) s) s l
    = Interface.with_neighbors
        (foldl (λ n c, dict_set c [] n) (Interface.neighbors s) l) s).
  { induction l as [|c l IH]; intros s; simpl; [by destruct s|]. by rewrite IH. }
  rewrite Hfold. simpl.
  match goal with |- context [foldl ?f ?z ?l] => set (n0 := foldl f z l) end.
  assert (Ha0 : @dict_get string (dict Residue.t (list Residue.t)) _
                  (Residue.parent_id a) n0 = Some [])
    by (apply init_chains_empty; by left).
  assert (Hb0 : @dict_get string (dict Residue.t (list Residue.t)) _
                  (Residue.parent_id b) n0 = Some [])
    by (apply init_chains_empty; by left).
  unfold Interface.note_first, Interface.note_second. unfold_M. simpl.
  rewrite Ha0. simpl.
  destruct (decide (Residue.parent_id a = Residue.parent_id b)) as [Heq|Hne].
  - rewrite <- Heq, dict_get_set_eq. simpl.
    rewrite decide_False by done. simpl. rewrite (decide_False (P := a = b)) by done.
    eexists. split; [reflexivity|]. unfold is_partner.
    rewrite <- Heq, !dict_get_set_eq. simpl.
    rewrite !decide_True by done. rewrite decide_False by done.
    rewrite decide_True by done.
    split; [apply bool_decide_eq_true|apply bool_decide_eq_false].
    + apply list_elem_of_here.
    + by intros ->%list_elem_of_singleton.
  - rewrite dict_get_set_ne, Hb0 by done. simpl.
    eexists. split; [reflexivity|]. unfold is_partner.
    rewrite dict_get_set_ne, !dict_get_set_eq by done. simpl.
    rewrite !decide_True by done.
    split; [apply bool_decide_eq_true|apply bool_decide_eq_false].
    + apply list_elem_of_here.
    + by intros ->%list_elem_of_singleton.
Qed.

(** C1: the contact map is not symmetric. On the first encounter of the
    second residue of a pair, line 77 records the residue as its own
    partner. With the single raw pair (A10, B20), B20 is a partner of A10
    while A10 is no partner of B20; with the three pairs of the scenario
    B20 and B21 lack A10 and list themselves. *)
Theorem set_neighbors_self_reference :
  let n := [("A", [(A10, [B20])]); ("B", [(B20, [B20])])] in
  let n' := [("A", [(A10, [B20; B21]); (A11, [B20])]);
             ("B", [(B20, [B20; A11]); (B21, [B21])])] in
  (Interface.set_neighbors mobile).1 = Ok n
  ∧ (Interface.set_neighbors reference).1 = Ok n'
  ∧ is_partner n A10 B20 = true ∧ is_partner n B20 A10 = false
  ∧ is_partner n' A10 B21 = true ∧ is_partner n' B21 A10 = false
  ∧ ¬ symmetric_map n ∧ ¬ symmetric_map n'.
Proof.
  repeat split; try reflexivity.
  - intros Hsym. specialize (Hsym A10 B20). vm_compute in Hsym. discriminate.
  - intros Hsym. specialize (Hsym A10 B21). vm_compute in Hsym. discriminate.
Qed.

(** C9: the partner sets depend on the order of the raw pairs. The pairs
    (A10, B20), (A11, B20) leave B20 with the partners B20, A11; the same
    pairs in the other order leave it with B20, A10. *)
Theorem set_neighbors_order_dependent :
  let chains := [("A", [A10; A11]); ("B", [B20; B21])] in
  let pairs := [(A10, B20); (A11, B20)] in
  let pairs' := [(A11, B20); (A10, B20)] in
  pairs ≡ₚ pairs'
  ∧ ∃ n n',
      (Interface.set_neighbors (iface_of chains pairs)).1 = Ok n
      ∧ (Interface.set_neighbors (iface_of chains pairs')).1 = Ok n'
      ∧ dict_get "B" n = Some [(B20, [B20; A11])]
      ∧ dict_get "B" n' = Some [(B20, [B20; A10])]
      ∧ is_partner n B20 A11 = true ∧ is_partner n' B20 A11 = false.
Proof.
  split; [apply Permutation_swap|].
  eexists _, _. repeat split; reflexivity.
Qed.

(** ** calculate_percentage *)

Section composition.
Variables (codes : dict string string) (polarity : dict string (list string))
  (pka : dict string bool) (polar_codes : list string).
Hypothesis polar_entry : dict_get "polar" polarity = Some polar_codes.

Let count := class_count codes polar_codes pka.

Lemma count_cons cls r l :
  count cls (r :: l)
  = (if bool_decide (class_of codes polar_codes pka r = Some cls) then 1 else 0) + count cls l.
Proof.
  unfold count, class_count. cbn [List.filter].
  destruct (bool_decide _); cbn [length]; lia.
Qed.

Lemma count_residues_classes l polar apolar charged :
  Forall (λ r, is_Some (class_of codes polar_codes pka r)) l →
  Interface.count_residues codes polarity pka (polar, apolar, charged) l
  = Ok (polar + count Polar l, apolar + count Apolar l, charged + count Charged l).
Proof.
  intros Hall. revert polar apolar charged.
  induction Hall as [|r l [cls Hcls] _ IH]; intros polar apolar charged.
  - simpl. unfold count, class_count. simpl. by rewrite !Z.add_0_r.
  - cbn [Interface.count_residues]. rewrite !count_cons, Hcls.
    unfold class_of in Hcls. unfold Interface.count_residue. unfold_M.
    rewrite polar_entry. cbn [from_option].
    destruct (dict_get (Residue.resname r) codes) as [code|]; [|done].
    cbn [from_option option_bind] in *. simpl in Hcls.
    destruct (bool_decide (code ∈ polar_codes)).
    + destruct (dict_get code pka) as [[]|]; simplify_eq/=; rewrite IH;
        repeat case_bool_decide; simplify_eq;
        by rewrite ?Z.add_0_l, ?Z.add_assoc.
    + simplify_eq/=. rewrite IH.
      repeat case_bool_decide; simplify_eq.
      by rewrite ?Z.add_0_l, ?Z.add_assoc.
Qed.

Lemma count_total l :
  Forall (λ r, is_Some (class_of codes polar_codes pka r)) l →
  count Polar l + count Apolar l + count Charged l = Z.of_nat (length l).
Proof.
  induction 1 as [|r l [cls Hcls] _ IH]; [done|].
  rewrite !count_cons, Hcls. cbn [length]. destruct cls; simpl; lia.
Qed.
End composition.

Lemma fractions_sum_to_one (x y z n : Z) :
  n ≠ 0 → x + y + z = n →
  (inject_Z x / inject_Z n + inject_Z y / inject_Z n + inject_Z z / inject_Z n == 1)%Q.
Proof.
  intros Hn <-. rewrite !inject_Z_plus.
  assert (Hn' : ¬ (inject_Z x + inject_Z y + inject_Z z == 0)%Q).
  { rewrite <- !inject_Z_plus. change 0%Q with (inject_Z 0).
    rewrite inject_Z_injective. done. }
  field. exact Hn'.
Qed.

(** C7: on a non-empty Interface whose residues all have a class (the
    residue name has a one-letter code, and a polar code has its entry in
    the charge table), every residue is counted in exactly one of the three
    classes, [calculate_percentage] returns the three class counts divided
    by the number of residues, and the three fractions sum to 1 (the
    divisions taken exactly). *)
Theorem calculate_percentage_sums_to_one codes polarity pka polar_codes self :
  Interface.child_list self ≠ [] →
  dict_get "polar" polarity = Some polar_codes →
  Forall (λ r, is_Some (class_of codes polar_codes pka r)) (Interface.child_list self) →
  let n := Interface.len self in
  let count cls := class_count codes polar_codes pka cls (Interface.child_list self) in
  count Polar + count Apolar + count Charged = n
  ∧ Interface.calculate_percentage codes polarity pka self
    = Ok [(inject_Z (count Polar) / inject_Z n)%Q;
          (inject_Z (count Apolar) / inject_Z n)%Q;
          (inject_Z (count Charged) / inject_Z n)%Q]
  ∧ (inject_Z (count Polar) / inject_Z n + inject_Z (count Apolar) / inject_Z n
     + inject_Z (count Charged) / inject_Z n == 1)%Q.
Proof.
  intros Hne Hpolar Hall n count.
  assert (Hn : n ≠ 0).
  { unfold n, Interface.len. destruct (Interface.child_list self); [done|].
    cbn [length]. lia. }
  assert (Hsum : count Polar + count Apolar + count Charged = n).
  { unfold count, n, Interface.len. by apply (count_total codes pka polar_codes). }
  split; [exact Hsum|]. split; [|by apply fractions_sum_to_one].
  unfold Interface.calculate_percentage, Interface.iter.
  rewrite (count_residues_classes codes polarity pka polar_codes Hpolar) by done.
  unfold_M. unfold Interface.float_div. fold n.
  rewrite !decide_False by done. rewrite !Z.add_0_l. reflexivity.
Qed.

Lemma calculate_percentage_sums_to_one_witness :
  let n := Interface.len reference in
  let count cls := class_count sample_codes ["S"; "D"; "K"; "T"] sample_pka cls
                     (Interface.child_list reference) in
  count Polar + count Apolar + count Charged = n
  ∧ Interface.calculate_percentage sample_codes sample_polarity sample_pka reference
    = Ok [(inject_Z (count Polar) / inject_Z n)%Q;
          (inject_Z (count Apolar) / inject_Z n)%Q;
          (inject_Z (count Charged) / inject_Z n)%Q]
  ∧ (inject_Z (count Polar) / inject_Z n + inject_Z (count Apolar) / inject_Z n
     + inject_Z (count Charged) / inject_Z n == 1)%Q.
Proof.
  apply (calculate_percentage_sums_to_one sample_codes sample_polarity sample_pka
           ["S"; "D"; "K"; "T"] reference).
  - vm_compute. discriminate.
  - reflexivity.
  - repeat constructor; vm_compute; eauto.
Defined.

(** ** calculate_BSA *)

(** C5: [calculate_BSA] returns no value. Line 142 calls
    [_get_atomic_SASA] by its bare name, which is bound in the class and not
    in the module: once the three runs of the surface-area program have
    succeeded the call raises NameError; and the body of
    [_get_atomic_SASA] itself reads the unbound name [sas_l] (line 118), so
    it raises NameError even on fully annotated atoms. *)
Theorem calculate_BSA_returns_nothing :
  "_get_atomic_SASA" ∈ Interface.class_namespace
  ∧ "_get_atomic_SASA" ∉ Interface.module_globals
  ∧ (∀ naccess self w, ∃ e, (Interface.calculate_BSA naccess self w).1 = Raise e)
  ∧ (Interface.calculate_BSA naccess_stub iface_AB world0).1
      = Raise (NameError "_get_atomic_SASA")
  ∧ (∀ structure w, ∃ e, (Interface._get_atomic_SASA structure w).1 = Raise e)
  ∧ (let w := (Interface.calculate_BSA naccess_stub iface_AB world0).2 in
     (Interface._get_atomic_SASA (Interface.AModel complex) w).1
       = Raise (NameError "sas_l")).
Proof.
  split; [compute_done|]. split; [compute_done|].
  split; [|split; [reflexivity|split; [|reflexivity]]].
  - intros naccess self w. unfold Interface.calculate_BSA.
    unfold_M. simpl.
    destruct (Interface.model self) as [m|]; simpl; [|eauto].
    destruct (Interface.get_chains self !! 0%nat) as [c0|]; simpl; [|eauto].
    destruct (Model_getitem m c0) as [chA|]; simpl; [|eauto].
    destruct (Interface.get_chains self !! 1%nat) as [c1|]; simpl; [|eauto].
    destruct (Model_getitem m c1) as [chB|]; simpl; [|eauto].
    unfold Interface.NACCESS_atomic. unfold_M. simpl.
    destruct (naccess m); simpl; [|eauto].
    destruct (naccess [chA]); simpl; [|eauto].
    destruct (naccess [chB]); simpl; eauto.
  - intros structure w. unfold Interface._get_atomic_SASA. unfold_M. simpl.
    destruct (result_map _ _); simpl; eauto.
Qed.

Lemma get_chains_first_two self (i : nat) :
  (i < 2)%nat →
  Interface.get_chains
    (Interface.with_child_dict (take 2 (Interface.child_dict self)) self) !! i
  = Interface.get_chains self !! i.
Proof.
  intros Hi. unfold Interface.get_chains, dict_keys. simpl.
  rewrite fmap_take. by apply lookup_take_lt.
Qed.

(** C4, as the code has it: there is no check of the number of chains.
    Whatever that number, [calculate_BSA] behaves as on the Interface cut
    down to the first two chains that [get_chains] yields; with fewer than
    two it stops on an automatic AttributeError, IndexError or KeyError of
    the lookups of lines 132-133, before anything is handed to the
    surface-area program. *)
Theorem calculate_BSA_uses_first_two naccess self w :
  length (Interface.get_chains self) ≠ 2%nat →
  Interface.calculate_BSA naccess self w
    = Interface.calculate_BSA naccess
        (Interface.with_child_dict (take 2 (Interface.child_dict self)) self) w
  ∧ ((length (Interface.get_chains self) < 2)%nat →
     ∃ e, Interface.calculate_BSA naccess self w = (Raise e, w)
          ∧ (e = AttributeError "model" ∨ e = IndexError ∨ e = KeyError)).
Proof.
  intros _. split.
  - unfold Interface.calculate_BSA.
    rewrite !get_chains_first_two by lia. reflexivity.
  - intros Hlen. unfold Interface.calculate_BSA. unfold_M. simpl.
    destruct (Interface.model self) as [m|]; simpl;
      [|eauto 6].
    destruct (Interface.get_chains self) as [|c0 [|c1 chains]] eqn:Hch; simpl;
      [eauto 6| |simpl in Hlen; lia].
    unfold Model_getitem. destruct (List.find _ m); simpl; eauto 6.
Qed.

Lemma calculate_BSA_uses_first_two_witness :
  Interface.calculate_BSA naccess_stub iface_ABC world0
    = Interface.calculate_BSA naccess_stub
        (Interface.with_child_dict (take 2 (Interface.child_dict iface_ABC)) iface_ABC)
        world0
  ∧ ∃ e, Interface.calculate_BSA naccess_stub iface_A world0 = (Raise e, world0)
         ∧ (e = AttributeError "model" ∨ e = IndexError ∨ e = KeyError).
Proof.
  split.
  - apply (calculate_BSA_uses_first_two naccess_stub iface_ABC world0).
    vm_compute. discriminate.
  - apply (calculate_BSA_uses_first_two naccess_stub iface_A world0).
    + vm_compute. discriminate.
    + vm_compute. lia.
Defined.

(** C4 as stated fails: with one chain the failure is the automatic
    IndexError of [chains[1]]; with three chains the complex and its first
    two chains are handed to the surface-area program, the third chain is
    dropped without notice, and the run ends in the NameError of line 142. *)
Lemma calculate_BSA_no_chain_count_check :
  length (Interface.get_chains iface_A) = 1%nat
  ∧ Interface.calculate_BSA naccess_stub iface_A world0 = (Raise IndexError, world0)
  ∧ ¬ explicit_failure (Interface.calculate_BSA naccess_stub iface_A world0).1
  ∧ length (Interface.get_chains iface_ABC) = 3%nat
  ∧ Interface.submitted (Interface.calculate_BSA naccess_stub iface_ABC world0).2
      = [complex; [Chain.mk "A" [A10; A11]]; [Chain.mk "B" [B20; B21]]]
  ∧ ¬ explicit_failure (Interface.calculate_BSA naccess_stub iface_ABC world0).1.
Proof.
  repeat split; try reflexivity.
  - intros (e & He & Hexp). vm_compute in He. injection He as <-. discriminate.
  - intros (e & He & Hexp). vm_compute in He. injection He as <-. discriminate.
Qed.

(** ** rmsd *)

Lemma _get_atoms_coords_raises_KeyError self interface opt e :
  Interface._get_atoms_coords self interface opt = Raise e → e = KeyError.
Proof.
  unfold Interface._get_atoms_coords.
  generalize (Interface.zip (Interface.child_list self) (Interface.child_list interface)).
  intros l.
  assert (Hacc : ∀ e', (Ok ([], []) : result (list Atom.t * list Atom.t)) = Raise e' → e' = KeyError)
    by (intros e'; discriminate).
  revert Hacc. generalize (Ok ([], []) : result (list Atom.t * list Atom.t)).
  induction l as [|[ref_res alt_res] l IH]; intros acc Hacc; simpl; [apply Hacc|].
  apply IH. intros e'. unfold_M.
  destruct acc as [[ref_atoms alt_atoms]|e0]; [|apply Hacc].
  unfold Residue.getitem, from_option.
  destruct (List.find _ (Residue.child_list ref_res)); [|by intros [= <-]].
  destruct (List.find _ (Residue.child_list alt_res)); [discriminate|by intros [= <-]].
Qed.

Lemma superimpose_no_ValueError rms self mobile msg :
  Interface.superimpose rms self mobile ≠ Raise (ValueError msg).
Proof.
  unfold Interface.superimpose. unfold_M.
  destruct (Interface._get_atoms_coords self mobile "ca") as [[ref_atoms alt_atoms]|e] eqn:Hc.
  - unfold from_option. destruct (rms ref_atoms alt_atoms); discriminate.
  - apply _get_atoms_coords_raises_KeyError in Hc as ->. discriminate.
Qed.

(** The order of the sort is total, transitive and antisymmetric, so that
    two lists sort to the same list exactly when one is a permutation of the
    other. *)
Lemma str_le_trans (a b c : string) :
  Interface.str_le a b → Interface.str_le b c → Interface.str_le a c.
Proof.
  unfold Interface.str_le, String.leb. revert b c.
  induction a as [|x a IH]; intros [|y b] [|z c]; simpl; try done.
  destruct (Ascii.compare x y) eqn:Hxy; [|intros _|done].
  - apply Ascii.compare_eq_iff in Hxy as ->.
    destruct (Ascii.compare y z) eqn:Hyz; [apply IH|done|done].
  - destruct (Ascii.compare y z) eqn:Hyz; [| |done]; intros _.
    + apply Ascii.compare_eq_iff in Hyz as <-. by rewrite Hxy.
    + unfold Ascii.compare in *.
      apply N.compare_lt_iff in Hxy. apply N.compare_lt_iff in Hyz.
      pose proof (N.lt_trans _ _ _ Hxy Hyz) as Hxz.
      apply N.compare_lt_iff in Hxz. by rewrite Hxz.
Qed.

#[global] Instance str_le_transitive : Transitive Interface.str_le.
Proof. intros a b c. apply str_le_trans. Qed.
#[global] Instance str_le_total : Total Interface.str_le.
Proof. intros a b. apply String.leb_total. Qed.
#[global] Instance str_le_antisymm : AntiSymm (=) Interface.str_le.
Proof. intros a b. apply String.leb_antisym. Qed.

Lemma sorted_eq_iff_Permutation (l1 l2 : list string) :
  merge_sort Interface.str_le l1 = merge_sort Interface.str_le l2 ↔ l1 ≡ₚ l2.
Proof.
  split.
  - intros Heq. rewrite <- (merge_sort_Permutation Interface.str_le l1), Heq.
    apply merge_sort_Permutation.
  - intros Hperm. apply (Sorted_unique Interface.str_le).
    + apply Sorted_merge_sort, _.
    + apply Sorted_merge_sort, _.
    + by rewrite !merge_sort_Permutation.
Qed.

(** C8: with the one-letter codes of both interfaces at hand, [rmsd]
    without [mob_ref] raises the ValueError of line 177 exactly when the
    sorted code lists differ, that is when the codes of one interface are no
    rearrangement of the codes of the other; when the sorted lists are
    equal, and whenever [mob_ref] is true, its outcome is the one of the
    superposition of lines 179-189. *)
Theorem rmsd_sequence_check codes rms self mobile ref_seq alt_seq :
  Interface.one_letter_seq codes self = Ok ref_seq →
  Interface.one_letter_seq codes mobile = Ok alt_seq →
  (Interface.rmsd codes rms self mobile None = Raise (ValueError "Sequences doesn't match")
     ↔ merge_sort Interface.str_le ref_seq ≠ merge_sort Interface.str_le alt_seq)
  ∧ (Interface.rmsd codes rms self mobile None = Raise (ValueError "Sequences doesn't match")
     ↔ ¬ ref_seq ≡ₚ alt_seq)
  ∧ (merge_sort Interface.str_le ref_seq = merge_sort Interface.str_le alt_seq →
     Interface.rmsd codes rms self mobile None = Interface.superimpose rms self mobile)
  ∧ (∀ mob_ref, Interface.truthy mob_ref = true →
     Interface.rmsd codes rms self mobile mob_ref = Interface.superimpose rms self mobile).
Proof.
  intros Href Halt.
  assert (Hiff : Interface.rmsd codes rms self mobile None
                   = Raise (ValueError "Sequences doesn't match")
                 ↔ merge_sort Interface.str_le ref_seq ≠ merge_sort Interface.str_le alt_seq).
  { unfold Interface.rmsd. rewrite Href, Halt. unfold_M. simpl.
    case_bool_decide as Hne; [done|].
    split; [|done]. intros Hraise. by apply superimpose_no_ValueError in Hraise. }
  split; [exact Hiff|]. split; [by rewrite Hiff, sorted_eq_iff_Permutation|].
  unfold Interface.rmsd. rewrite Href, Halt. unfold_M. simpl. split.
  - intros Heq. by rewrite bool_decide_eq_false_2 by (intros ?; done).
  - intros mob_ref ->. reflexivity.
Qed.

Lemma rmsd_sequence_check_witness :
  let ref_seq := ["A"; "S"; "D"; "L"] in
  let alt_seq := ["A"; "D"] in
  (Interface.rmsd sample_codes sample_rms reference no_contacts None
     = Raise (ValueError "Sequences doesn't match")
     ↔ merge_sort Interface.str_le ref_seq ≠ merge_sort Interface.str_le alt_seq)
  ∧ (Interface.rmsd sample_codes sample_rms reference no_contacts None
     = Raise (ValueError "Sequences doesn't match")
     ↔ ¬ ref_seq ≡ₚ alt_seq)
  ∧ (merge_sort Interface.str_le ref_seq = merge_sort Interface.str_le alt_seq →
     Interface.rmsd sample_codes sample_rms reference no_contacts None
     = Interface.superimpose sample_rms reference no_contacts)
  ∧ (∀ mob_ref, Interface.truthy mob_ref = true →
     Interface.rmsd sample_codes sample_rms reference no_contacts mob_ref
     = Interface.superimpose sample_rms reference no_contacts).
Proof.
  apply (rmsd_sequence_check sample_codes sample_rms reference no_contacts
           ["A"; "S"; "D"; "L"] ["A"; "D"]); reflexivity.
Defined.

(** The three outcomes on sample interfaces: a mismatch, a match, and a
    mismatch passed over on request. *)
Example rmsd_samples :
  Interface.rmsd sample_codes sample_rms reference no_contacts None
    = Raise (ValueError "Sequences doesn't match")
  ∧ Interface.rmsd sample_codes sample_rms reference mobile None = Ok 0%Q
  ∧ Interface.rmsd sample_codes sample_rms reference no_contacts (Some true) = Ok 0%Q.
Proof. repeat split; reflexivity. Qed.

(** ** fcc *)

Lemma fcc_unfold self mobile h :
  Interface.fcc self mobile h
  = match Interface.fcc_prepare self mobile h with
    | (Ok _, h1) =>
        let ids := Interface.neighbors_id (h1 !!! self) in
        let mobile_ids := Interface.neighbors_id (h1 !!! mobile) in
        if decide (Interface.total_contacts ids = 0) then (Raise ZeroDivisionError, h1)
        else (Ok (Interface.float
                    (Interface.common_contacts ids mobile_ids
                       `div` Interface.total_contacts ids)), h1)
    | (Raise e, h1) => (Raise e, h1)
    end.
Proof.
  unfold Interface.fcc. unfold_M.
  destruct (Interface.fcc_prepare self mobile h) as [[[]|e] h1]; [|done].
  simpl. by destruct (decide _).
Qed.






(** *** The preparation succeeds on ready interfaces *)

Lemma kept_set_chain s0 s c d :
  kept s0 s →
  kept s0 (Interface.with_neighbors (dict_set c d (Interface.neighbors s)) s).
Proof.
  intros (Hcd & Hup & Hcov). repeat split; [done..|].
  intros c' Hc'. simpl. by apply dict_get_set_is_Some, Hcov.
Qed.

Lemma note_first_kept s0 s resA resB :
  kept s0 s → Residue.parent_id resA ∈ Interface.get_chains s0 →
  ∃ s', Interface.note_first resA resB s = (Ok tt, s') ∧ kept s0 s'.
Proof.
  intros Hkept HA. unfold Interface.note_first. unfold_M. simpl.
  destruct (proj2 (proj2 Hkept) _ HA) as [d ->]. simpl.
  destruct (dict_get resA d) as [l|]; [destruct (bool_decide _)|];
    eauto using kept_set_chain.
Qed.

Lemma note_second_kept s0 s resA resB :
  kept s0 s → Residue.parent_id resB ∈ Interface.get_chains s0 →
  ∃ s', Interface.note_second resA resB s = (Ok tt, s') ∧ kept s0 s'.
Proof.
  intros Hkept HB. unfold Interface.note_second. unfold_M. simpl.
  destruct (proj2 (proj2 Hkept) _ HB) as [d ->]. simpl.
  destruct (dict_get resB d) as [l|]; [destruct (bool_decide _)|];
    eauto using kept_set_chain.
Qed.

Lemma set_neighbors_succeeds s :
  pairs_within_chains s →
  ∃ s', Interface.set_neighbors s = (Ok (Interface.neighbors s'), s') ∧ kept s s'.
Proof.
  intros Hpairs. unfold Interface.set_neighbors.
  (* the first loop *)
  assert (Hinit : ∃ s1, for_each (Interface.get_chains s)
            (λ c, modify (λ s, Interface.with_neighbors
                                 (dict_set c [] (Interface.neighbors s)) s)) s
            = (Ok tt, s1) ∧ kept s s1).
  { erewrite (for_each_modify _ (λ c s, Interface.with_neighbors
                                   (dict_set c [] (Interface.neighbors s)) s));
      [|done].
    eexists. split; [done|].
    assert (Hgen : ∀ chains s1,
      Interface.child_dict s1 = Interface.child_dict s →
      Interface.uniq_pairs s1 = Interface.uniq_pairs s →
      let s2 := foldl (λ s c, Interface.with_neighbors
                                (dict_set c [] (Interface.neighbors s)) s) s1 chains in
      Interface.child_dict s2 = Interface.child_dict s
      ∧ Interface.uniq_pairs s2 = Interface.uniq_pairs s
      ∧ ∀ c, c ∈ chains ∨ is_Some (dict_get c (Interface.neighbors s1)) →
             is_Some (dict_get c (Interface.neighbors s2))).
    { induction chains as [|c chains IH]; intros s1 Hcd Hup; simpl.
      - repeat split; [done..|]. intros c [[]%elem_of_nil|]; done.
      - destruct (IH (Interface.with_neighbors
                        (dict_set c [] (Interface.neighbors s1)) s1))
          as (Hcd' & Hup' & Hcov); [done..|].
        repeat split; [done..|]. intros c' Hc'. apply Hcov. simpl.
        destruct Hc' as [[->|]%elem_of_cons|]; [right|by left|right].
        + rewrite dict_get_set_eq. eauto.
        + by apply dict_get_set_is_Some. }
    destruct (Hgen (Interface.get_chains s) s) as (? & ? & Hcov); [done..|].
    repeat split; [done..|]. intros c Hc. apply Hcov. by left. }
  destruct Hinit as (s1 & Hloop1 & Hkept1).
  (* the second loop *)
  destruct (for_each_invariant (kept s)
              (λ '(resA, resB),
                 Interface.note_first resA resB;; Interface.note_second resA resB)
              (Interface.uniq_pairs s) s1) as (s2 & Hloop2 & Hkept2); [|done|].
  { intros [resA resB] s' Hin Hk.
    destruct (proj1 (Forall_forall _ _) Hpairs _ Hin) as [HA HB]. simpl in HA, HB.
    destruct (note_first_kept s s' resA resB) as (s'' & H1 & Hk''); [done..|].
    destruct (note_second_kept s s'' resA resB) as (s3 & H2 & Hk3); [done..|].
    exists s3. split; [|done]. unfold_M. by rewrite H1. }
  exists s2. split; [|done]. unfold_M. by rewrite Hloop1, Hloop2.
Qed.

Lemma _get_neighbors_id_succeeds chain s :
  is_Some (dict_get chain (Interface.neighbors s)) →
  ∃ s', Interface._get_neighbors_id chain s = (Ok tt, s')
        ∧ Interface.neighbors s' = Interface.neighbors s
        ∧ Interface.child_dict s' = Interface.child_dict s.
Proof.
  intros [d Hd]. unfold Interface._get_neighbors_id. unfold_M. simpl.
  rewrite Hd. simpl.
  apply (for_each_invariant
           (λ s', Interface.neighbors s' = Interface.neighbors s
                  ∧ Interface.child_dict s' = Interface.child_dict s)); [|done].
  intros [key partners] s' _ [Hn Hcd]. eauto.
Qed.

Lemma ensure_neighbors_ready l (h : Interface.heap) c :
  ready c (h !!! l) →
  ∃ h', ensure_neighbors l h = (Ok tt, h')
        ∧ is_Some (dict_get c (Interface.neighbors (h' !!! l)))
        ∧ Interface.child_dict (h' !!! l) = Interface.child_dict (h !!! l)
        ∧ ∀ l', l' ≠ l → h' !!! l' = h !!! l'.
Proof.
  intros [(Hfresh & Hpairs & Hc)|Hcached]; unfold ensure_neighbors; unfold_M; simpl.
  - rewrite Hfresh. simpl.
    destruct (set_neighbors_succeeds _ Hpairs) as (s1 & Hset & Hcd & _ & Hcov).
    unfold Interface.on. rewrite Hset. simpl. eexists. split; [done|].
    rewrite lookup_total_insert_eq. repeat split; [by apply Hcov|done|].
    intros l' Hne. by rewrite lookup_total_insert_ne.
  - destruct Hcached as [d Hd].
    destruct (Interface.neighbors (h !!! l)) eqn:Hn; [done|]. simpl.
    eexists. split; [done|]. rewrite Hn, Hd. eauto.
Qed.

Lemma fcc_prepare_ensures self mobile :
  Interface.fcc_prepare self mobile
  = (ensure_neighbors self;; ensure_neighbors mobile;;
     s ← gets (λ h, h !!! self);
     chain ← lift (from_option (NameError "chain") (head (Interface.get_chains s)));
     Interface.on self (Interface._get_neighbors_id chain);;
     Interface.on mobile (Interface._get_neighbors_id chain)).
Proof. reflexivity. Qed.

(** The preparation of [fcc] succeeds on interfaces that are ready for the
    first chain of the reference. *)
Lemma fcc_prepare_succeeds self mobile (h : Interface.heap) c :
  ready c (h !!! self) → ready c (h !!! mobile) →
  head (Interface.get_chains (h !!! self)) = Some c →
  ∃ h1, Interface.fcc_prepare self mobile h = (Ok tt, h1).
Proof.
  intros Hself Hmobile Hc. rewrite fcc_prepare_ensures.
  destruct (ensure_neighbors_ready self h c Hself) as (h1 & Hrun1 & Hs1 & Hcd1 & Hrest1).
  assert (Hmobile1 : ready c (h1 !!! mobile)).
  { destruct (decide (mobile = self)) as [->|Hne]; [by right|by rewrite Hrest1]. }
  destruct (ensure_neighbors_ready mobile h1 c Hmobile1) as (h2 & Hrun2 & Hm2 & Hcd2 & Hrest2).
  assert (Hs2 : is_Some (dict_get c (Interface.neighbors (h2 !!! self)))
                ∧ Interface.child_dict (h2 !!! self) = Interface.child_dict (h !!! self)).
  { destruct (decide (self = mobile)) as [->|Hne].
    - split; [done|]. by rewrite Hcd2.
    - rewrite Hrest2 by done. by split. }
  destruct Hs2 as [Hs2 Hcd].
  destruct (_get_neighbors_id_succeeds c (h2 !!! self) Hs2) as (s3 & Hrun3 & Hn3 & _).
  assert (Hm3 : is_Some (dict_get c (Interface.neighbors (<[self := s3]> h2 !!! mobile)))).
  { destruct (decide (mobile = self)) as [->|Hne].
    - by rewrite lookup_total_insert_eq, Hn3.
    - by rewrite lookup_total_insert_ne. }
  destruct (_get_neighbors_id_succeeds c _ Hm3) as (m4 & Hrun4 & _).
  unfold_M. rewrite Hrun1, Hrun2.
  unfold Interface.get_chains in *. rewrite Hcd, Hc. simpl.
  unfold Interface.on. rewrite Hrun3. simpl. rewrite Hrun4. eauto.
Qed.

(** C2: on the scenario of the specification (reference with three raw
    pairs, mobile with one) the reference has 3 contacts on the selected
    chain, 1 of them common, and [fcc] returns float(1/3) with [/] the floor
    division of two ints: 0.0, not 1/3. The outcome is the same when the
    dicts list chain B first. Whatever the interfaces, a value [fcc]
    returns is the float of an int. *)
Theorem fcc_scenario_truncated :
  let run := Interface.fcc 0%nat 1%nat (heap2 reference mobile) in
  let run' := Interface.fcc 0%nat 1%nat (heap2 reference_BA mobile_BA) in
  run.1 = Ok 0%Q ∧ run'.1 = Ok 0%Q
  ∧ Interface.total_contacts (Interface.neighbors_id (run.2 !!! 0%nat)) = 3
  ∧ Interface.common_contacts (Interface.neighbors_id (run.2 !!! 0%nat))
                              (Interface.neighbors_id (run.2 !!! 1%nat)) = 1
  ∧ ¬ (0 == 1 # 3)%Q
  ∧ (∀ self mobile h q h1,
       Interface.fcc self mobile h = (Ok q, h1) → ∃ z : Z, q = inject_Z z).
Proof.
  repeat split; try (vm_compute; reflexivity); [discriminate|].
  intros self mobile h q h1. rewrite fcc_unfold.
  destruct (Interface.fcc_prepare self mobile h) as [[[]|e] h']; [|discriminate].
  simpl. destruct (decide _); [discriminate|]. intros [= <- _]. eauto.
Qed.

(** C3, as the code has it: when both interfaces are ready for the chain
    [fcc] selects and the reference has no contact on that chain, [fcc]
    divides by zero: the failure is the automatic ZeroDivisionError of line
    224. *)
Theorem fcc_zero_total_divides_by_zero self mobile (h : Interface.heap) c :
  ready c (h !!! self) → ready c (h !!! mobile) →
  head (Interface.get_chains (h !!! self)) = Some c →
  let h1 := (Interface.fcc_prepare self mobile h).2 in
  Interface.total_contacts (Interface.neighbors_id (h1 !!! self)) = 0 →
  Interface.fcc self mobile h = (Raise ZeroDivisionError, h1).
Proof.
  intros Hself Hmobile Hc.
  destruct (fcc_prepare_succeeds self mobile h c) as [h1 Hprep]; [done..|].
  rewrite fcc_unfold, Hprep. simpl. intros Htotal. by rewrite decide_True.
Qed.

Lemma fcc_zero_total_divides_by_zero_witness :
  let h := heap2 no_contacts mobile in
  Interface.fcc 0%nat 1%nat h
  = (Raise ZeroDivisionError, (Interface.fcc_prepare 0%nat 1%nat h).2).
Proof.
  apply (fcc_zero_total_divides_by_zero 0%nat 1%nat (heap2 no_contacts mobile) "A").
  - left. repeat split; compute_done.
  - left. repeat split; compute_done.
  - reflexivity.
  - vm_compute. reflexivity.
Defined.

(** C3 as stated fails: an Interface of two chains without contacts has a
    zero total, and comparing it with itself or with the mobile interface of
    the scenario ends in ZeroDivisionError, which no [raise] statement
    reports. *)
Lemma fcc_no_contacts_not_explicit :
  let run := Interface.fcc 0%nat 0%nat (heap1 no_contacts) in
  let run' := Interface.fcc 0%nat 1%nat (heap2 no_contacts mobile) in
  Interface.total_contacts (Interface.neighbors_id (run.2 !!! 0%nat)) = 0
  ∧ run.1 = Raise ZeroDivisionError ∧ ¬ explicit_failure run.1
  ∧ Interface.total_contacts (Interface.neighbors_id (run'.2 !!! 0%nat)) = 0
  ∧ run'.1 = Raise ZeroDivisionError ∧ ¬ explicit_failure run'.1.
Proof.
  repeat split; try (vm_compute; reflexivity).
  - intros (e & He & Hexp). vm_compute in He. injection He as <-. discriminate.
  - intros (e & He & Hexp). vm_compute in He. injection He as <-. discriminate.
Qed.





(** * Further properties *)

(** ** set_neighbors, on the map *)

Lemma with_neighbors_same s : Interface.with_neighbors (Interface.neighbors s) s = s.
Proof. by destruct s. Qed.

Lemma with_neighbors_twice n n' s :
  Interface.with_neighbors n (Interface.with_neighbors n' s) = Interface.with_neighbors n s.
Proof. by destruct s. Qed.

Lemma note_first_map resA resB s :
  Interface.note_first resA resB s
  = match note resA resB resB (Interface.neighbors s) with
    | Some n => (Ok tt, Interface.with_neighbors n s)
    | None => (Raise KeyError, s)
    end.
Proof.
  unfold Interface.note_first, note. unfold_M. simpl.
  destruct (dict_get (Residue.parent_id resA) (Interface.neighbors s)) as [d|]; simpl; [|done].
  destruct (dict_get resA d) as [l|]; [|done].
  destruct (bool_decide (resB ∈ l)); [|done]. by rewrite with_neighbors_same.
Qed.

Lemma note_second_map resA resB s :
  Interface.note_second resA resB s
  = match note resB resB resA (Interface.neighbors s) with
    | Some n => (Ok tt, Interface.with_neighbors n s)
    | None => (Raise KeyError, s)
    end.
Proof.
  unfold Interface.note_second, note. unfold_M. simpl.
  destruct (dict_get (Residue.parent_id resB) (Interface.neighbors s)) as [d|]; simpl; [|done].
  destruct (dict_get resB d) as [l|]; [|done].
  destruct (bool_decide (resA ∈ l)); [|done]. by rewrite with_neighbors_same.
Qed.

Lemma for_each_pairs_map pairs s :
  for_each pairs (λ '(resA, resB),
                    Interface.note_first resA resB;; Interface.note_second resA resB) s
  = let '(r, n) := note_pairs pairs (Interface.neighbors s) in
    (r, Interface.with_neighbors n s).
Proof.
  revert s. induction pairs as [|[resA resB] pairs IH]; intros s; simpl.
  - by rewrite with_neighbors_same.
  - unfold_M. rewrite note_first_map.
    destruct (note resA resB resB (Interface.neighbors s)) as [n1|]; simpl;
      [|by rewrite with_neighbors_same].
    rewrite note_second_map. simpl.
    destruct (note resB resB resA n1) as [n2|]; simpl; [|done].
    rewrite IH. simpl. destruct (note_pairs pairs n2) as [r n].
    by rewrite !with_neighbors_twice.
Qed.

Lemma reset_chains_state chains s :
  foldl (λ s c, Interface.with_neighbors (dict_set c [] (Interface.neighbors s)) s) s chains
  = Interface.with_neighbors (reset_chains chains (Interface.neighbors s)) s.
Proof.
  unfold reset_chains. revert s.
  induction chains as [|c chains IH]; intros s; simpl; [by rewrite with_neighbors_same|].
  rewrite IH. simpl. by rewrite with_neighbors_twice.
Qed.

(** [set_neighbors] changes the contact map and nothing else, and the map
    it leaves is the one the raw pairs give after the reset of the chains. *)
Lemma set_neighbors_map s :
  Interface.set_neighbors s
  = let '(r, n) := note_pairs (Interface.uniq_pairs s)
                     (reset_chains (Interface.get_chains s) (Interface.neighbors s)) in
    (match r with Ok _ => Ok n | Raise e => Raise e end, Interface.with_neighbors n s).
Proof.
  unfold Interface.set_neighbors.
  unfold mbind at 1 2 3; unfold M_bind, bind, get, gets.
  erewrite (for_each_modify _ (λ c s, Interface.with_neighbors
                                 (dict_set c [] (Interface.neighbors s)) s));
    [|done].
  rewrite reset_chains_state, for_each_pairs_map. simpl.
  destruct (note_pairs _ _) as [[[]|e] n]; simpl; by rewrite with_neighbors_twice.
Qed.

Lemma dict_get_Some_key {K V} `{EqDecision K} (d : dict K V) k v :
  dict_get k d = Some v → k ∈ dict_keys d.
Proof.
  unfold dict_keys. induction d as [|[k' v'] d IH]; simpl; [done|].
  destruct (decide (k' = k)) as [->|Hne]; intros Hget.
  - apply list_elem_of_here.
  - apply list_elem_of_further. auto.
Qed.

Lemma dict_key_get_Some {K V} `{EqDecision K} (d : dict K V) k :
  k ∈ dict_keys d → is_Some (dict_get k d).
Proof.
  unfold dict_keys. induction d as [|[k' v'] d IH]; simpl.
  - by intros ?%elem_of_nil.
  - destruct (decide (k' = k)) as [->|Hne]; [eauto|].
    intros [?|?]%elem_of_cons; [done|auto].
Qed.

Lemma dict_set_keys_present {K V} `{EqDecision K} (d : dict K V) k v :
  is_Some (dict_get k d) → dict_keys (dict_set k v d) = dict_keys d.
Proof.
  intros [v' Hv]. rewrite dict_set_keys.
  rewrite bool_decide_eq_true_2; [done|]. by eapply dict_get_Some_key.
Qed.

Lemma partners_note key first partner n n' c r :
  note key first partner n = Some n' →
  partners n' c r
  = if decide (c = Residue.parent_id key ∧ r = key)
    then Some (noted first partner (partners n c r))
    else partners n c r.
Proof.
  unfold note.
  destruct (dict_get (Residue.parent_id key) n) as [d|] eqn:Hd; simpl; [|done].
  intros [= <-].
  destruct (decide (c = Residue.parent_id key)) as [->|Hc];
    [destruct (decide (r = key)) as [->|Hr]|].
  - rewrite decide_True by done. unfold partners at 2. rewrite Hd. simpl.
    unfold noted, partners.
    destruct (dict_get key d) as [l|] eqn:Hl.
    + destruct (bool_decide (partner ∈ l)) eqn:Hb.
      * rewrite Hd. simpl. by rewrite Hl.
      * rewrite dict_get_set_eq. simpl. by rewrite dict_get_set_eq.
    + rewrite dict_get_set_eq. simpl. by rewrite dict_get_set_eq.
  - rewrite decide_False by (by intros [_ ?]). unfold partners.
    destruct (dict_get key d) as [l|]; [destruct (bool_decide _)|];
      rewrite ?dict_get_set_eq, ?Hd; simpl; by rewrite ?dict_get_set_ne.
  - rewrite decide_False by (by intros [? _]). unfold partners.
    destruct (dict_get key d) as [l|]; [destruct (bool_decide _)|];
      by rewrite ?dict_get_set_ne.
Qed.

Lemma note_keys key first partner n n' :
  note key first partner n = Some n' → dict_keys n' = dict_keys n.
Proof.
  unfold note.
  destruct (dict_get (Residue.parent_id key) n) as [d|] eqn:Hd; simpl; [|done].
  intros [= <-].
  destruct (dict_get key d) as [l|]; [destruct (bool_decide _)|];
    by rewrite ?dict_set_keys_present.
Qed.

Lemma note_Some key first partner n :
  Residue.parent_id key ∈ dict_keys n → is_Some (note key first partner n).
Proof.
  intros [d Hd]%dict_key_get_Some. unfold note. rewrite Hd. simpl. eauto.
Qed.

Lemma reset_chains_get chains (n : Interface.neighbors_t) c :
  dict_get c (reset_chains chains n)
  = if bool_decide (c ∈ chains) then Some [] else dict_get c n.
Proof.
  unfold reset_chains. revert n.
  induction chains as [|c' chains IH]; intros n; simpl; [done|].
  rewrite IH. destruct (decide (c' = c)) as [->|Hne].
  - rewrite dict_get_set_eq. rewrite (bool_decide_eq_true_2 (c ∈ c :: chains));
      [by case_bool_decide|apply list_elem_of_here].
  - rewrite dict_get_set_ne by done.
    case_bool_decide as Hc.
    + rewrite bool_decide_eq_true_2; [done|by apply list_elem_of_further].
    + rewrite bool_decide_eq_false_2; [done|].
      intros [?|?]%elem_of_cons; done.
Qed.

Lemma partners_reset chains n c r :
  partners (reset_chains chains n) c r
  = if bool_decide (c ∈ chains) then None else partners n c r.
Proof.
  unfold partners. rewrite reset_chains_get. by case_bool_decide.
Qed.

Lemma reset_chains_keys chains (n : Interface.neighbors_t) c :
  c ∈ dict_keys (reset_chains chains n) ↔ c ∈ chains ∨ c ∈ dict_keys n.
Proof.
  split.
  - intros [d Hd]%dict_key_get_Some. rewrite reset_chains_get in Hd.
    case_bool_decide; [by left|right]. by eapply dict_get_Some_key.
  - intros Hc. assert (is_Some (dict_get c (reset_chains chains n))) as [d Hd].
    { rewrite reset_chains_get. case_bool_decide as Hin; [eauto|].
      destruct Hc as [?|Hc]; [done|]. by apply dict_key_get_Some. }
    by eapply dict_get_Some_key.
Qed.

(** What every step of the second loop keeps is kept by the loop, which
    then runs to its end. *)
Lemma note_pairs_invariant (Q : Interface.neighbors_t → Prop) pairs n :
  Forall (λ ab : Residue.t * Residue.t,
            Residue.parent_id ab.1 ∈ dict_keys n ∧ Residue.parent_id ab.2 ∈ dict_keys n)
         pairs →
  (∀ a b key first partner n1 n2,
     (a, b) ∈ pairs → key ∈ [a; b] → first ∈ [a; b] → partner ∈ [a; b] →
     Q n1 → note key first partner n1 = Some n2 → Q n2) →
  Q n →
  ∃ n', note_pairs pairs n = (Ok tt, n') ∧ Q n' ∧ dict_keys n' = dict_keys n.
Proof.
  revert n. induction pairs as [|[a b] pairs IH]; intros n Hin Hstep Hn; simpl; [eauto|].
  apply Forall_cons in Hin as [[Ha Hb] Hin]. simpl in Ha, Hb.
  destruct (note_Some a b b n Ha) as [n1 H1]. rewrite H1.
  pose proof (note_keys _ _ _ _ _ H1) as Hk1.
  destruct (note_Some b b a n1) as [n2 H2]; [by rewrite Hk1|]. rewrite H2.
  pose proof (note_keys _ _ _ _ _ H2) as Hk2.
  destruct (IH n2) as (n' & Hrun & Hn' & Hk').
  - by rewrite Hk2, Hk1.
  - intros a' b' key first partner n1' n2' Hab. apply Hstep.
    by apply list_elem_of_further.
  - assert (Ha' : a ∈ [a; b]) by apply list_elem_of_here.
    assert (Hb' : b ∈ [a; b]) by apply list_elem_of_further, list_elem_of_here.
    eapply (Hstep a b b b a n1); [apply list_elem_of_here|done..| |done].
    eapply (Hstep a b a b b n); [apply list_elem_of_here|done..].
  - exists n'. split; [done|]. split; [done|]. by rewrite Hk', Hk2, Hk1.
Qed.

Lemma pairs_within_keys s :
  pairs_within_chains s →
  Forall (λ ab : Residue.t * Residue.t,
            Residue.parent_id ab.1
              ∈ dict_keys (reset_chains (Interface.get_chains s) (Interface.neighbors s))
            ∧ Residue.parent_id ab.2
              ∈ dict_keys (reset_chains (Interface.get_chains s) (Interface.neighbors s)))
         (Interface.uniq_pairs s).
Proof.
  intros Hpairs. eapply Forall_impl; [exact Hpairs|].
  intros [a b] [Ha Hb]. simpl in *.
  split; apply reset_chains_keys; by left.
Qed.

(** The run of [set_neighbors] on an Interface whose raw pairs stay within
    its chains: it returns the map reached, which keeps whatever the steps
    of the second loop keep. *)
Lemma set_neighbors_invariant (Q : Interface.neighbors_t → Prop) s :
  pairs_within_chains s →
  (∀ a b key first partner n1 n2,
     (a, b) ∈ Interface.uniq_pairs s → key ∈ [a; b] → first ∈ [a; b] → partner ∈ [a; b] →
     Q n1 → note key first partner n1 = Some n2 → Q n2) →
  Q (reset_chains (Interface.get_chains s) (Interface.neighbors s)) →
  ∃ n, Interface.set_neighbors s = (Ok n, Interface.with_neighbors n s) ∧ Q n
       ∧ dict_keys n
         = dict_keys (reset_chains (Interface.get_chains s) (Interface.neighbors s)).
Proof.
  intros Hpairs Hstep Hinit. rewrite set_neighbors_map.
  destruct (note_pairs_invariant Q _ _ (pairs_within_keys s Hpairs) Hstep Hinit)
    as (n & -> & Hn & Hkeys). eauto.
Qed.

Lemma noted_NoDup first partner old :
  (∀ l, old = Some l → NoDup l ∧ l ≠ []) →
  NoDup (noted first partner old) ∧ noted first partner old ≠ [].
Proof.
  intros Hold. unfold noted. destruct old as [l|].
  - destruct (Hold l eq_refl) as [Hnd Hne]. case_bool_decide as Hin; [done|].
    split; [|by destruct l].
    apply NoDup_app. split; [done|]. split; [|apply NoDup_singleton].
    intros x Hx ->%list_elem_of_singleton. done.
  - split; [apply NoDup_singleton|done].
Qed.

Lemma noted_elem first partner old x :
  x ∈ noted first partner old →
  x = first ∨ x = partner ∨ ∃ l, old = Some l ∧ x ∈ l.
Proof.
  unfold noted. destruct old as [l|].
  - case_bool_decide; [eauto|]. intros [?|Hx]%elem_of_app; [eauto|].
    apply list_elem_of_singleton in Hx as ->. eauto.
  - intros Hx. apply list_elem_of_singleton in Hx as ->. eauto.
Qed.

Lemma noted_mono first partner l x : x ∈ l → x ∈ noted first partner (Some l).
Proof.
  unfold noted. case_bool_decide; [done|]. intros ?. apply elem_of_app. by left.
Qed.

Lemma noted_partner partner old : partner ∈ noted partner partner old.
Proof.
  unfold noted. destruct old as [l|]; [|apply list_elem_of_here].
  case_bool_decide; [done|]. apply elem_of_app. right. apply list_elem_of_here.
Qed.

(** X1: on an Interface whose raw pairs stay within its chains,
    [set_neighbors] returns, changes nothing but the contact map, and every
    partner list of a chain of the Interface is non-empty, free of
    duplicates and filed under the chain of its residue. *)
Theorem set_neighbors_partner_lists s :
  pairs_within_chains s →
  ∃ n, Interface.set_neighbors s = (Ok n, Interface.with_neighbors n s)
       ∧ ∀ c r l, c ∈ Interface.get_chains s → partners n c r = Some l →
           NoDup l ∧ l ≠ [] ∧ Residue.parent_id r = c.
Proof.
  intros Hpairs.
  destruct (set_neighbors_invariant
              (λ n, ∀ c r l, c ∈ Interface.get_chains s → partners n c r = Some l →
                             NoDup l ∧ l ≠ [] ∧ Residue.parent_id r = c) s Hpairs)
    as (n & Hrun & Hn & _); [| |eauto].
  - intros a b key first partner n1 n2 _ _ _ _ Hn1 Hnote c r l Hc.
    rewrite (partners_note _ _ _ _ _ _ _ Hnote). case_decide as Hkey; [|by apply Hn1].
    destruct Hkey as [-> ->]. intros [= <-].
    destruct (noted_NoDup first partner (partners n1 (Residue.parent_id key) key)).
    { intros l Hl. destruct (Hn1 _ _ _ Hc Hl) as (? & ? & _). done. }
    done.
  - intros c r l Hc. rewrite partners_reset. by rewrite bool_decide_eq_true_2.
Qed.

Lemma set_neighbors_partner_lists_witness :
  ∃ n, Interface.set_neighbors reference = (Ok n, Interface.with_neighbors n reference)
       ∧ ∀ c r l, c ∈ Interface.get_chains reference → partners n c r = Some l →
           NoDup l ∧ l ≠ [] ∧ Residue.parent_id r = c.
Proof. apply (set_neighbors_partner_lists reference). compute_done. Defined.

(** X2: the contact map [set_neighbors] builds for the chains of the
    Interface holds residues of the raw pairs only, as keys and as
    partners. *)
Theorem set_neighbors_only_pairs s :
  pairs_within_chains s →
  ∃ n, Interface.set_neighbors s = (Ok n, Interface.with_neighbors n s)
       ∧ ∀ c r l, c ∈ Interface.get_chains s → partners n c r = Some l →
           r ∈ residues_of (Interface.uniq_pairs s)
           ∧ ∀ x, x ∈ l → x ∈ residues_of (Interface.uniq_pairs s).
Proof.
  intros Hpairs.
  assert (Hres : ∀ a b x, (a, b) ∈ Interface.uniq_pairs s → x ∈ [a; b] →
                          x ∈ residues_of (Interface.uniq_pairs s)).
  { intros a b x Hab Hx. unfold residues_of. apply elem_of_app.
    apply elem_of_cons in Hx as [->|Hx]; [left|right].
    - apply list_elem_of_fmap. by exists (a, b).
    - apply list_elem_of_singleton in Hx as ->. apply list_elem_of_fmap. by exists (a, b). }
  destruct (set_neighbors_invariant
              (λ n, ∀ c r l, c ∈ Interface.get_chains s → partners n c r = Some l →
                             r ∈ residues_of (Interface.uniq_pairs s)
                             ∧ ∀ x, x ∈ l → x ∈ residues_of (Interface.uniq_pairs s))
              s Hpairs) as (n & Hrun & Hn & _); [| |eauto].
  - intros a b key first partner n1 n2 Hab Hkey Hfirst Hpartner Hn1 Hnote c r l Hc.
    rewrite (partners_note _ _ _ _ _ _ _ Hnote). case_decide as Hk; [|by apply Hn1].
    destruct Hk as [-> ->]. intros [= <-]. split; [by eapply Hres|].
    intros x [->| [->|(l & Hl & Hx)]]%noted_elem; [by eapply Hres..|].
    by eapply Hn1.
  - intros c r l Hc. rewrite partners_reset. by rewrite bool_decide_eq_true_2.
Qed.

Lemma set_neighbors_only_pairs_witness :
  ∃ n, Interface.set_neighbors reference = (Ok n, Interface.with_neighbors n reference)
       ∧ ∀ c r l, c ∈ Interface.get_chains reference → partners n c r = Some l →
           r ∈ residues_of (Interface.uniq_pairs reference)
           ∧ ∀ x, x ∈ l → x ∈ residues_of (Interface.uniq_pairs reference).
Proof. apply (set_neighbors_only_pairs reference). compute_done. Defined.

Lemma is_partner_partners n a b :
  is_partner n a b = true ↔ ∃ l, partners n (Residue.parent_id a) a = Some l ∧ b ∈ l.
Proof.
  unfold is_partner, partners.
  destruct (dict_get (Residue.parent_id a) n) as [d|]; simpl;
    [|split; [done|by intros (? & ? & ?)]].
  destruct (dict_get a d) as [l|]; [|split; [done|by intros (? & ? & ?)]].
  rewrite bool_decide_eq_true. split; [eauto|]. by intros (? & [= <-] & ?).
Qed.

Lemma note_mono key first partner n n' c r x :
  note key first partner n = Some n' →
  (∃ l, partners n c r = Some l ∧ x ∈ l) → ∃ l, partners n' c r = Some l ∧ x ∈ l.
Proof.
  intros Hnote (l & Hl & Hx). rewrite (partners_note _ _ _ _ _ _ _ Hnote).
  case_decide; [|eauto]. rewrite Hl. eauto using noted_mono.
Qed.

Lemma note_entry_mono key first partner n n' c r :
  note key first partner n = Some n' →
  is_Some (partners n c r) → is_Some (partners n' c r).
Proof.
  intros Hnote Hl. rewrite (partners_note _ _ _ _ _ _ _ Hnote). case_decide; eauto.
Qed.

Lemma note_pairs_mono pairs n n' c r x :
  note_pairs pairs n = (Ok tt, n') →
  ((∃ l, partners n c r = Some l ∧ x ∈ l) → ∃ l, partners n' c r = Some l ∧ x ∈ l)
  ∧ (is_Some (partners n c r) → is_Some (partners n' c r)).
Proof.
  revert n. induction pairs as [|[a b] pairs IH]; intros n; simpl.
  - by intros [= <-].
  - destruct (note a b b n) as [n1|] eqn:H1; [|done].
    destruct (note b b a n1) as [n2|] eqn:H2; [|done].
    intros [IH1 IH2]%IH. split; intros H.
    + eauto using note_mono.
    + eauto using note_entry_mono.
Qed.

Lemma note_pairs_covers pairs n n' a b :
  note_pairs pairs n = (Ok tt, n') → (a, b) ∈ pairs →
  (∃ l, partners n' (Residue.parent_id a) a = Some l ∧ b ∈ l)
  ∧ is_Some (partners n' (Residue.parent_id b) b).
Proof.
  revert n. induction pairs as [|[a' b'] pairs IH]; intros n; simpl.
  - by intros _ ?%elem_of_nil.
  - destruct (note a' b' b' n) as [n1|] eqn:H1; [|done].
    destruct (note b' b' a' n1) as [n2|] eqn:H2; [|done].
    intros Hrun [[= -> ->]|Hin]%elem_of_cons; [|by eapply IH].
    split.
    + apply (proj1 (note_pairs_mono _ _ _ _ _ _ Hrun)).
      eapply note_mono; [done|].
      rewrite (partners_note _ _ _ _ _ _ _ H1), decide_True by done.
      eauto using noted_partner.
    + apply (proj2 (note_pairs_mono _ _ _ _ _ b' Hrun)).
      rewrite (partners_note _ _ _ _ _ _ _ H2), decide_True by done. eauto.
Qed.

(** X3: after [set_neighbors], for every raw pair its second residue is
    listed as a partner of the first, and the second residue has an entry of
    its own. *)
Theorem set_neighbors_lists_pairs s :
  pairs_within_chains s →
  ∃ n, Interface.set_neighbors s = (Ok n, Interface.with_neighbors n s)
       ∧ ∀ a b, (a, b) ∈ Interface.uniq_pairs s →
           is_partner n a b = true ∧ is_Some (partners n (Residue.parent_id b) b).
Proof.
  intros Hpairs. rewrite set_neighbors_map.
  destruct (note_pairs_invariant (λ _, True) _ _ (pairs_within_keys s Hpairs))
    as (n & Hrun & _ & _); [done..|].
  rewrite Hrun. exists n. split; [done|]. intros a b Hab.
  rewrite is_partner_partners. by eapply note_pairs_covers.
Qed.

Lemma set_neighbors_lists_pairs_witness :
  ∃ n, Interface.set_neighbors reference = (Ok n, Interface.with_neighbors n reference)
       ∧ ∀ a b, (a, b) ∈ Interface.uniq_pairs reference →
           is_partner n a b = true ∧ is_Some (partners n (Residue.parent_id b) b).
Proof. apply (set_neighbors_lists_pairs reference). compute_done. Defined.

(** X4: when the contact map holds no chain the Interface lacks (as when it
    is still empty), the map [set_neighbors] builds has an entry for each
    chain of the Interface and for no other. *)
Theorem set_neighbors_covers_chains s :
  pairs_within_chains s → no_stale_chain s →
  ∃ n, Interface.set_neighbors s = (Ok n, Interface.with_neighbors n s)
       ∧ ∀ c, is_Some (dict_get c n) ↔ c ∈ Interface.get_chains s.
Proof.
  intros Hpairs Hstale.
  destruct (set_neighbors_invariant (λ _, True) s Hpairs) as (n & Hrun & _ & Hkeys);
    [done..|].
  exists n. split; [done|]. intros c. split.
  - intros [d Hd]. apply dict_get_Some_key in Hd. rewrite Hkeys in Hd.
    apply reset_chains_keys in Hd as [?|Hd]; [done|].
    by apply (proj1 (Forall_forall _ _) Hstale).
  - intros Hc. apply dict_key_get_Some. rewrite Hkeys. apply reset_chains_keys. by left.
Qed.

Lemma set_neighbors_covers_chains_witness :
  ∃ n, Interface.set_neighbors reference = (Ok n, Interface.with_neighbors n reference)
       ∧ ∀ c, is_Some (dict_get c n) ↔ c ∈ Interface.get_chains reference.
Proof. apply (set_neighbors_covers_chains reference); compute_done. Defined.

Lemma dict_set_same {K V} `{EqDecision K} (d : dict K V) k v :
  dict_get k d = Some v → dict_set k v d = d.
Proof.
  induction d as [|[k' v'] d IH]; simpl; [done|].
  destruct (decide (k' = k)) as [->|Hne]; [by intros [= ->]|].
  intros Hget. by rewrite IH.
Qed.

Lemma reset_chains_idemp chains n :
  reset_chains chains (reset_chains chains n) = reset_chains chains n.
Proof.
  assert (Hgen : ∀ cs (m : Interface.neighbors_t),
            (∀ c, c ∈ cs → dict_get c m = Some []) → reset_chains cs m = m).
  { unfold reset_chains. induction cs as [|c cs IH]; intros m Hm; simpl; [done|].
    rewrite dict_set_same by (apply Hm, list_elem_of_here).
    apply IH. intros c' Hc'. by apply Hm, list_elem_of_further. }
  apply Hgen. intros c Hc. rewrite reset_chains_get. by rewrite bool_decide_eq_true_2.
Qed.

Lemma reset_chains_NoDup chains (n : Interface.neighbors_t) :
  NoDup (dict_keys n) → NoDup (dict_keys (reset_chains chains n)).
Proof.
  unfold reset_chains. revert n.
  induction chains as [|c chains IH]; intros n Hn; simpl; [done|].
  by apply IH, dict_set_keys_NoDup.
Qed.

Lemma agree_keys C m m' : agree C m m' → dict_keys m = dict_keys m'.
Proof.
  unfold dict_keys. induction 1 as [|[k v] [k' v'] m m' [Hk _] _ IH]; [done|].
  rewrite !fmap_cons. simpl in *. congruence.
Qed.

Lemma agree_of_keys m m' : dict_keys m = dict_keys m' → agree [] m m'.
Proof.
  unfold dict_keys, agree. revert m'.
  induction m as [|[k v] m IH]; intros [|[k' v'] m'] Hkeys;
    rewrite ?fmap_cons in Hkeys; simpl in Hkeys; try discriminate Hkeys.
  - constructor.
  - injection Hkeys as -> Hkeys. constructor; [|by apply IH].
    split; [done|]. by intros ?%elem_of_nil.
Qed.

Lemma agree_weaken c C m m' :
  c ∉ dict_keys m → agree C m m' → agree (c :: C) m m'.
Proof.
  unfold dict_keys, agree. intros Hc Hagree.
  induction Hagree as [|[k v] [k' v'] m m' [Hk Hv] _ IH]; [constructor|].
  simpl in *. apply not_elem_of_cons in Hc as [Hck Hc].
  constructor; [|by apply IH]. split; [done|]. simpl.
  intros [?|?]%elem_of_cons; [done|auto].
Qed.

Lemma agree_set c C m m' :
  NoDup (dict_keys m) → agree C m m' →
  agree (c :: C) (dict_set c [] m) (dict_set c [] m').
Proof.
  unfold dict_keys, agree. intros Hnd Hagree.
  induction Hagree as [|[k v] [k' v'] m m' [Hk Hv] Hrest IH]; simpl.
  - constructor; [done|constructor].
  - simpl in *. subst k'. apply NoDup_cons in Hnd as [Hk Hnd].
    destruct (decide (k = c)) as [->|Hne].
    + constructor; [done|]. by apply agree_weaken.
    + constructor; [|by apply IH]. split; [done|]. simpl.
      intros [?|?]%elem_of_cons; [done|auto].
Qed.

Lemma agree_reset chains C m m' :
  NoDup (dict_keys m) → agree C m m' →
  agree (reverse chains ++ C) (reset_chains chains m) (reset_chains chains m').
Proof.
  unfold reset_chains. revert C m m'.
  induction chains as [|c chains IH]; intros C m m' Hnd Hagree; simpl; [done|].
  rewrite reverse_cons, <- app_assoc. simpl.
  apply IH; [by apply dict_set_keys_NoDup|by apply agree_set].
Qed.

Lemma agree_eq C m m' :
  agree C m m' → (∀ k, k ∈ dict_keys m → k ∈ C) → m = m'.
Proof.
  unfold dict_keys, agree.
  induction 1 as [|[k v] [k' v'] m m' [Hk Hv] _ IH]; intros HC; [done|].
  simpl in *. subst k'. rewrite Hv, IH; [done| |].
  - intros k' Hk'. by apply HC, list_elem_of_further.
  - apply HC, list_elem_of_here.
Qed.

(** X5: on an Interface whose raw pairs stay within its chains and whose
    contact map holds no other chain, building the contact map a second time
    gives the same map and the same Interface again. *)
Theorem set_neighbors_again s :
  pairs_within_chains s → no_stale_chain s →
  NoDup (dict_keys (Interface.neighbors s)) →
  Interface.set_neighbors (Interface.set_neighbors s).2 = Interface.set_neighbors s.
Proof.
  intros Hpairs Hstale Hnd.
  destruct (set_neighbors_invariant (λ _, True) s Hpairs) as (n1 & Hrun & _ & Hkeys);
    [done..|].
  assert (Hreset : reset_chains (Interface.get_chains s) n1
                   = reset_chains (Interface.get_chains s) (Interface.neighbors s)).
  { rewrite <- (reset_chains_idemp _ (Interface.neighbors s)). symmetry.
    apply (agree_eq (reverse (Interface.get_chains s) ++ [])).
    - apply agree_reset; [by apply reset_chains_NoDup|].
      by apply agree_of_keys.
    - intros k Hk. rewrite app_nil_r. apply elem_of_reverse.
      rewrite reset_chains_idemp in Hk.
      apply reset_chains_keys in Hk as [?|Hk]; [done|].
      by apply (proj1 (Forall_forall _ _) Hstale). }
  rewrite Hrun. cbn [snd]. rewrite set_neighbors_map in Hrun |- *.
  change (Interface.get_chains (Interface.with_neighbors n1 s))
    with (Interface.get_chains s).
  change (Interface.uniq_pairs (Interface.with_neighbors n1 s))
    with (Interface.uniq_pairs s).
  change (Interface.neighbors (Interface.with_neighbors n1 s)) with n1.
  rewrite Hreset.
  destruct (note_pairs (Interface.uniq_pairs s) _) as [[[]|e] n]; [|done].
  injection Hrun as <- _. by rewrite with_neighbors_twice.
Qed.

Lemma set_neighbors_again_witness :
  Interface.set_neighbors (Interface.set_neighbors reference).2
  = Interface.set_neighbors reference.
Proof. apply (set_neighbors_again reference); compute_done. Defined.

Lemma note_None key first partner (n : Interface.neighbors_t) :
  Residue.parent_id key ∉ dict_keys n → note key first partner n = None.
Proof.
  intros Hkey. unfold note.
  destruct (dict_get (Residue.parent_id key) n) as [d|] eqn:Hd; [|done].
  by apply dict_get_Some_key in Hd.
Qed.

Lemma note_pairs_KeyError pairs (n : Interface.neighbors_t) :
  Exists (λ ab : Residue.t * Residue.t,
            Residue.parent_id ab.1 ∉ dict_keys n ∨ Residue.parent_id ab.2 ∉ dict_keys n)
         pairs →
  (note_pairs pairs n).1 = Raise KeyError.
Proof.
  revert n. induction pairs as [|[a b] pairs IH]; intros n Hex; simpl.
  - by apply Exists_nil in Hex.
  - destruct (decide (Residue.parent_id a ∈ dict_keys n)) as [Ha|Ha];
      [|by rewrite note_None].
    destruct (note_Some a b b n Ha) as [n1 H1]. rewrite H1.
    pose proof (note_keys _ _ _ _ _ H1) as Hk1.
    destruct (decide (Residue.parent_id b ∈ dict_keys n)) as [Hb|Hb];
      [|by rewrite note_None by (by rewrite Hk1)].
    destruct (note_Some b b a n1) as [n2 H2]; [by rewrite Hk1|]. rewrite H2.
    pose proof (note_keys _ _ _ _ _ H2) as Hk2.
    apply IH. rewrite Hk2, Hk1.
    apply Exists_cons in Hex as [[?|?]|?]; done.
Qed.

(** X6: when the contact map holds no chain the Interface lacks,
    [set_neighbors] fails exactly when a raw pair has a residue of a chain
    that is not in the Interface, and the failure is the KeyError of the
    lookup of that chain (lines 69, 75). *)
Theorem set_neighbors_KeyError s :
  no_stale_chain s →
  (Interface.set_neighbors s).1 = Raise KeyError ↔ ¬ pairs_within_chains s.
Proof.
  intros Hstale. split.
  - intros Hraise Hpairs.
    destruct (set_neighbors_invariant (λ _, True) s Hpairs) as (n & Hrun & _);
      [done..|].
    by rewrite Hrun in Hraise.
  - intros Hpairs. apply not_Forall_Exists in Hpairs; [|apply _].
    rewrite set_neighbors_map.
    pose proof (note_pairs_KeyError (Interface.uniq_pairs s)
                  (reset_chains (Interface.get_chains s) (Interface.neighbors s))) as Hfail.
    destruct (note_pairs _ _) as [r n]. simpl in *. rewrite Hfail; [done|].
    eapply Exists_impl; [exact Hpairs|]. intros [a b] Hab. simpl in *.
    assert (Hkey : ∀ c, c ∉ Interface.get_chains s →
              c ∉ dict_keys (reset_chains (Interface.get_chains s) (Interface.neighbors s))).
    { intros c Hc [?|Hin]%reset_chains_keys; [done|].
      by apply Hc, (proj1 (Forall_forall _ _) Hstale). }
    destruct (decide (Residue.parent_id a ∈ Interface.get_chains s)); [|by left; apply Hkey].
    right. apply Hkey. intros ?. by apply Hab.
Qed.

Lemma set_neighbors_KeyError_witness :
  (Interface.set_neighbors (iface_of [("A", [A10])] [(A10, B20)])).1 = Raise KeyError
  ↔ ¬ pairs_within_chains (iface_of [("A", [A10])] [(A10, B20)]).
Proof.
  apply (set_neighbors_KeyError (iface_of [("A", [A10])] [(A10, B20)])). compute_done.
Defined.

(** ** _get_neighbors_id *)

Lemma with_neighbors_id_twice v v' s :
  Interface.with_neighbors_id v (Interface.with_neighbors_id v' s)
  = Interface.with_neighbors_id v s.
Proof. by destruct s. Qed.

Lemma _get_neighbors_id_map chain s :
  Interface._get_neighbors_id chain s
  = match dict_get chain (Interface.neighbors s) with
    | Some d => (Ok tt, Interface.with_neighbors_id (ids_of d) s)
    | None => (Raise KeyError, Interface.with_neighbors_id [] s)
    end.
Proof.
  unfold Interface._get_neighbors_id. unfold_M. simpl.
  destruct (dict_get chain (Interface.neighbors s)) as [d|]; simpl; [|done].
  erewrite (for_each_modify _
             (λ (kl : Residue.t * list Residue.t) s,
                Interface.with_neighbors_id
                  (dict_set (id_entry kl).1 (id_entry kl).2
                     (Interface.neighbors_id s)) s)); [|by intros [??] ?].
  f_equal. unfold ids_of.
  assert (Hgen : ∀ ids,
    foldl (λ s (kl : Residue.t * list Residue.t),
             Interface.with_neighbors_id
               (dict_set (id_entry kl).1 (id_entry kl).2 (Interface.neighbors_id s)) s)
          (Interface.with_neighbors_id ids s) d
    = Interface.with_neighbors_id
        (foldl (λ ids kl, dict_set (id_entry kl).1 (id_entry kl).2 ids) ids d) s).
  { induction d as [|kl d IH]; intros ids; simpl; [done|].
    rewrite with_neighbors_id_twice. apply IH. }
  apply Hgen.
Qed.

(** The entries of an id map built from [ids]: unique keys, and each entry
    either of [ids] or the [id_entry] of a residue of the chain. *)
Lemma ids_of_entries d ids :
  let ids' := foldl (λ ids kl, dict_set (id_entry kl).1 (id_entry kl).2 ids) ids d in
  (NoDup (dict_keys ids) → NoDup (dict_keys ids'))
  ∧ (∀ k l, dict_get k ids' = Some l →
       dict_get k ids = Some l ∨ ∃ kl, kl ∈ d ∧ id_entry kl = (k, l))
  ∧ (∀ k, is_Some (dict_get k ids) ∨ (∃ kl, kl ∈ d ∧ (id_entry kl).1 = k) →
       is_Some (dict_get k ids')).
Proof.
  revert ids. induction d as [|kl d IH]; intros ids; simpl.
  - split; [done|]. split; [eauto|].
    intros k [?|(kl & []%elem_of_nil & _)]; done.
  - destruct (IH (dict_set (id_entry kl).1 (id_entry kl).2 ids)) as (Hnd & Hget & Hkey).
    split; [intros ?; by apply Hnd, dict_set_keys_NoDup|]. split.
    + intros k l [Hl|(kl' & Hin & Hkl')]%Hget.
      * destruct (decide ((id_entry kl).1 = k)) as [<-|Hne].
        -- rewrite dict_get_set_eq in Hl. injection Hl as <-. right.
           exists kl. split; [apply list_elem_of_here|apply surjective_pairing].
        -- rewrite dict_get_set_ne in Hl by done. by left.
      * right. exists kl'. split; [by apply list_elem_of_further|done].
    + intros k Hk. apply Hkey.
      destruct Hk as [Hk|(kl' & [->|Hin]%elem_of_cons & Hkl')].
      * left. by apply dict_get_set_is_Some.
      * left. rewrite <- Hkl', dict_get_set_eq. eauto.
      * right. eauto.
Qed.

(** X7: when the contact map has an entry for the chain,
    [_get_neighbors_id] replaces the id map and nothing else; the new map
    has one entry for each residue id of the chain, and each entry holds,
    sorted, the sequence numbers of the partners of a residue with that
    id. *)
Theorem _get_neighbors_id_sorted chain s d :
  dict_get chain (Interface.neighbors s) = Some d →
  ∃ ids, Interface._get_neighbors_id chain s = (Ok tt, Interface.with_neighbors_id ids s)
    ∧ NoDup (dict_keys ids)
    ∧ (∀ key ps, (key, ps) ∈ d → is_Some (dict_get (Residue.id key) ids))
    ∧ (∀ k l, dict_get k ids = Some l →
         Sorted Z.le l
         ∧ ∃ key ps, (key, ps) ∈ d ∧ Residue.id key = k
                     ∧ l ≡ₚ Interface.seqnum <$> ps).
Proof.
  intros Hd. rewrite _get_neighbors_id_map, Hd. exists (ids_of d). split; [done|].
  destruct (ids_of_entries d []) as (Hnd & Hget & Hkey). fold (ids_of d) in *.
  split; [apply Hnd, NoDup_nil_2|]. split.
  - intros key ps Hin. apply Hkey. right. by exists (key, ps).
  - intros k l [?|([key ps] & Hin & [= <- <-])]%Hget; [done|]. split.
    + apply Sorted_merge_sort. intros x y. lia.
    + exists key, ps. split; [done|]. split; [done|]. apply merge_sort_Permutation.
Qed.

Lemma _get_neighbors_id_sorted_witness :
  let s := (Interface.set_neighbors reference).2 in
  ∃ ids, Interface._get_neighbors_id "A" s = (Ok tt, Interface.with_neighbors_id ids s)
    ∧ NoDup (dict_keys ids)
    ∧ (∀ key ps, (key, ps) ∈ [(A10, [B20; B21]); (A11, [B20])] →
         is_Some (dict_get (Residue.id key) ids))
    ∧ (∀ k l, dict_get k ids = Some l →
         Sorted Z.le l
         ∧ ∃ key ps, (key, ps) ∈ [(A10, [B20; B21]); (A11, [B20])] ∧ Residue.id key = k
                     ∧ l ≡ₚ Interface.seqnum <$> ps).
Proof.
  apply (_get_neighbors_id_sorted "A" (Interface.set_neighbors reference).2).
  reflexivity.
Defined.

(** X8: when the contact map has no entry for the chain,
    [_get_neighbors_id] raises KeyError after it has emptied the id map:
    the id map of an earlier call is lost, the rest of the Interface is as
    before. *)
Theorem _get_neighbors_id_missing_chain chain s :
  dict_get chain (Interface.neighbors s) = None →
  Interface._get_neighbors_id chain s
  = (Raise KeyError, Interface.with_neighbors_id [] s).
Proof. intros Hd. by rewrite _get_neighbors_id_map, Hd. Qed.

Lemma _get_neighbors_id_missing_chain_witness :
  let s := (Interface._get_neighbors_id "A" (Interface.set_neighbors reference).2).2 in
  Interface.neighbors_id s ≠ []
  ∧ Interface._get_neighbors_id "C" s
    = (Raise KeyError, Interface.with_neighbors_id [] s).
Proof.
  split; [vm_compute; discriminate|].
  apply (_get_neighbors_id_missing_chain "C"). reflexivity.
Defined.

Lemma ids_of_distinct d :
  NoDup ((λ kl : Residue.t * list Residue.t, Residue.id kl.1) <$> d) →
  ids_of d = id_entry <$> d.
Proof.
  unfold ids_of. intros Hnd.
  assert (Hgen : ∀ ids : dict res_id_t (list Z),
    (∀ kl, kl ∈ d → Residue.id kl.1 ∉ dict_keys ids) →
    foldl (λ ids kl, dict_set (id_entry kl).1 (id_entry kl).2 ids) ids d
    = ids ++ (id_entry <$> d)).
  { induction d as [|kl d IH]; intros ids Hfresh; simpl; [by rewrite app_nil_r|].
    apply NoDup_cons in Hnd as [Hkl Hnd].
    assert (Hset : dict_set (Residue.id kl.1)
                     (merge_sort Z.le (Interface.seqnum <$> kl.2)) ids
                   = ids ++ [id_entry kl]).
    { assert (Hk : Residue.id kl.1 ∉ dict_keys ids) by apply Hfresh, list_elem_of_here.
      clear -Hk. unfold dict_keys in Hk.
      induction ids as [|[k v] ids IH]; simpl; [done|].
      rewrite fmap_cons in Hk. apply not_elem_of_cons in Hk as [Hne Hk]. simpl in Hne.
      rewrite decide_False by done. by rewrite IH. }
    rewrite Hset, IH, <- app_assoc; [done|done|].
    intros kl' Hin. unfold dict_keys. rewrite fmap_app. simpl.
    intros [Hold|Hnew]%elem_of_app.
    - apply (Hfresh kl'); [by apply list_elem_of_further|done].
    - apply list_elem_of_singleton in Hnew. apply Hkl. rewrite <- Hnew.
      apply list_elem_of_fmap. by exists kl'. }
  rewrite Hgen; [done|]. intros kl _. apply not_elem_of_nil.
Qed.

(** X9: when no two residues of the chain share an id, the total of line
    217, taken over the id map [_get_neighbors_id] builds, is the number of
    partner entries of the chain in the contact map. *)
Theorem _get_neighbors_id_total chain s d :
  dict_get chain (Interface.neighbors s) = Some d →
  NoDup ((λ kl : Residue.t * list Residue.t, Residue.id kl.1) <$> d) →
  Interface.total_contacts
    (Interface.neighbors_id (Interface._get_neighbors_id chain s).2)
  = Z.of_nat (length (mjoin d.*2)).
Proof.
  intros Hd Hnd. rewrite _get_neighbors_id_map, Hd. simpl.
  rewrite (ids_of_distinct d Hnd). clear. unfold Interface.total_contacts, dict_values.
  induction d as [|[key ps] d IH]; [done|].
  rewrite !fmap_cons. simpl. rewrite IH, length_app, Nat2Z.inj_add.
  f_equal. f_equal. rewrite merge_sort_Permutation. apply length_fmap.
Qed.

Lemma _get_neighbors_id_total_witness :
  Interface.total_contacts
    (Interface.neighbors_id
       (Interface._get_neighbors_id "A" (Interface.set_neighbors reference).2).2)
  = Z.of_nat (length (mjoin [(A10, [B20; B21]); (A11, [B20])].*2)).
Proof.
  apply (_get_neighbors_id_total "A" (Interface.set_neighbors reference).2).
  - reflexivity.
  - compute_done.
Defined.

(** ** fcc, further *)

Lemma size_list_to_set_le (l : list Z) : (size (list_to_set l : gset Z) ≤ length l)%nat.
Proof.
  induction l as [|x l IH]; [done|]. rewrite list_to_set_cons, size_union_alt.
  rewrite size_singleton.
  pose proof (subseteq_size (list_to_set l ∖ {[x]}) (list_to_set l : gset Z)) as Hle.
  assert (Hsub : list_to_set l ∖ {[x]} ⊆ (list_to_set l : gset Z)) by set_solver.
  specialize (Hle Hsub). simpl. lia.
Qed.

Lemma common_contacts_bounds (ids mobile_ids : dict res_id_t (list Z)) :
  0 ≤ Interface.common_contacts ids mobile_ids ≤ Interface.total_contacts ids.
Proof.
  unfold Interface.common_contacts, Interface.total_contacts, dict_values.
  assert (Hgen : ∀ common,
    common ≤ foldl (λ common '(res_id, l),
                      match dict_get res_id mobile_ids with
                      | Some l' => common + Z.of_nat (size (list_to_set l ∩ list_to_set l' : gset Z))
                      | None => common
                      end) common ids
    ≤ common + foldr Z.add 0 ((λ l, Z.of_nat (length l)) <$> ids.*2)).
  { induction ids as [|[k l] ids IH]; intros common; [simpl; lia|].
    rewrite !fmap_cons. cbn [foldl foldr snd].
    set (rest := foldr Z.add 0 _) in *.
    destruct (dict_get k mobile_ids) as [l'|].
    - specialize (IH (common + Z.of_nat (size (list_to_set l ∩ list_to_set l' : gset Z)))).
      pose proof (subseteq_size (list_to_set l ∩ list_to_set l') (list_to_set l : gset Z))
        as Hle.
      pose proof (size_list_to_set_le l).
      assert (Hsub : list_to_set l ∩ list_to_set l' ⊆ (list_to_set l : gset Z))
        by set_solver.
      specialize (Hle Hsub). lia.
    - specialize (IH common). lia. }
  apply Hgen.
Qed.

(** X10: a value [fcc] returns is 1.0 when every contact the reference has
    on the selected chain is found again in the mobile interface, and 0.0
    otherwise; the common contacts never outnumber the reference's. *)
Theorem fcc_zero_or_one self mobile (h h1 : Interface.heap) q :
  Interface.fcc self mobile h = (Ok q, h1) →
  let total := Interface.total_contacts (Interface.neighbors_id (h1 !!! self)) in
  let common := Interface.common_contacts (Interface.neighbors_id (h1 !!! self))
                  (Interface.neighbors_id (h1 !!! mobile)) in
  0 ≤ common ≤ total ∧ total ≠ 0
  ∧ q = (if decide (common = total) then 1 else 0)%Q.
Proof.
  rewrite fcc_unfold.
  destruct (Interface.fcc_prepare self mobile h) as [[[]|e] h']; [|done]. simpl.
  destruct (decide (Interface.total_contacts _ = 0)) as [|Htotal]; [done|].
  intros [= <- <-].
  pose proof (common_contacts_bounds (Interface.neighbors_id (h' !!! self))
                (Interface.neighbors_id (h' !!! mobile))) as Hb.
  split; [done|]. split; [done|].
  case_decide as Heq.
  - rewrite Heq, Z.div_same by done. done.
  - rewrite Z.div_small by lia. done.
Qed.

Lemma fcc_zero_or_one_witness :
  let h1 := (Interface.fcc 0%nat 1%nat (heap2 reference mobile)).2 in
  let total := Interface.total_contacts (Interface.neighbors_id (h1 !!! 0%nat)) in
  let common := Interface.common_contacts (Interface.neighbors_id (h1 !!! 0%nat))
                  (Interface.neighbors_id (h1 !!! 1%nat)) in
  0 ≤ common ≤ total ∧ total ≠ 0
  ∧ 0%Q = (if decide (common = total) then 1 else 0)%Q.
Proof.
  apply (fcc_zero_or_one 0%nat 1%nat (heap2 reference mobile)).
  vm_compute. reflexivity.
Defined.

Lemma only_maps_differ_refl s : only_maps_differ s s.
Proof. exists (Interface.neighbors s), (Interface.neighbors_id s). by destruct s. Qed.

Lemma only_maps_differ_trans s1 s2 s3 :
  only_maps_differ s1 s2 → only_maps_differ s2 s3 → only_maps_differ s1 s3.
Proof. intros (n & ids & ->) (n' & ids' & ->). exists n', ids'. by destruct s1. Qed.

Lemma frames_pure {A} (f : Interface.heap → result A) : frames (λ h, (f h, h)).
Proof. intros h l. apply only_maps_differ_refl. Qed.

Lemma frames_bind {A B} (m : M Interface.heap A) (k : A → M Interface.heap B) :
  frames m → (∀ a, frames (k a)) → frames (m ≫= k).
Proof.
  intros Hm Hk h l. unfold_M. specialize (Hm h l).
  destruct (m h) as [[a|e] h1]; [|done].
  eapply only_maps_differ_trans; [done|apply Hk].
Qed.

Lemma frames_when (b : bool) (m : M Interface.heap unit) : frames m → frames (when b m).
Proof.
  intros Hm. destruct b; [exact Hm|]. apply (frames_pure (λ _, Ok tt)).
Qed.

Lemma frames_on {A} (l : Interface.ref) (m : M Interface.t A) :
  (∀ s, only_maps_differ s (m s).2) → frames (Interface.on l m).
Proof.
  intros Hm h l'. unfold Interface.on. specialize (Hm (h !!! l)).
  destruct (m (h !!! l)) as [r s']. simpl in *.
  destruct (decide (l' = l)) as [->|Hne].
  - by rewrite lookup_total_insert_eq.
  - rewrite lookup_total_insert_ne by done. apply only_maps_differ_refl.
Qed.

Lemma set_neighbors_only_maps s : only_maps_differ s (Interface.set_neighbors s).2.
Proof.
  rewrite set_neighbors_map. destruct (note_pairs _ _) as [r n]. simpl.
  exists n, (Interface.neighbors_id s). by destruct s.
Qed.

Lemma _get_neighbors_id_only_maps chain s :
  only_maps_differ s (Interface._get_neighbors_id chain s).2.
Proof.
  rewrite _get_neighbors_id_map.
  destruct (dict_get chain (Interface.neighbors s)) as [d|]; simpl.
  - exists (Interface.neighbors s), (ids_of d). by destruct s.
  - exists (Interface.neighbors s), []. by destruct s.
Qed.

Lemma fcc_prepare_frames self mobile : frames (Interface.fcc_prepare self mobile).
Proof.
  unfold Interface.fcc_prepare.
  apply frames_bind; [apply (frames_pure (λ h, Ok (h !!! self)))|intros s].
  apply frames_bind.
  { apply frames_when, frames_bind; [|intros _; apply (frames_pure (λ _, Ok tt))].
    apply frames_on, set_neighbors_only_maps. }
  intros _. apply frames_bind; [apply (frames_pure (λ h, Ok (h !!! mobile)))|intros m].
  apply frames_bind.
  { apply frames_when, frames_bind; [|intros _; apply (frames_pure (λ _, Ok tt))].
    apply frames_on, set_neighbors_only_maps. }
  intros _. apply frames_bind; [apply (frames_pure (λ h, Ok (h !!! self)))|intros s'].
  apply frames_bind; [apply (frames_pure (λ _, from_option _ _))|intros chain].
  apply frames_bind; [|intros _]; apply frames_on, _get_neighbors_id_only_maps.
Qed.

(** X11: whether it returns or fails, [fcc] changes nothing of any
    Interface of the store but the contact map and the id map: the
    residues, the chains, the raw pairs and the model are as before. *)
Theorem fcc_changes_maps_only self mobile (h : Interface.heap) (l : Interface.ref) :
  let s := h !!! l in
  let s' := (Interface.fcc self mobile h).2 !!! l in
  only_maps_differ s s'
  ∧ Interface.child_list s' = Interface.child_list s
  ∧ Interface.child_dict s' = Interface.child_dict s
  ∧ Interface.uniq_pairs s' = Interface.uniq_pairs s
  ∧ Interface.model s' = Interface.model s.
Proof.
  assert (Hfcc : frames (Interface.fcc self mobile)).
  { unfold Interface.fcc. apply frames_bind; [apply fcc_prepare_frames|intros _].
    apply frames_bind; [apply (frames_pure (λ h, Ok (h !!! self)))|intros s].
    apply frames_bind; [apply (frames_pure (λ h, Ok (h !!! mobile)))|intros m].
    simpl. destruct (decide _).
    - apply (frames_pure (λ _, Raise ZeroDivisionError)).
    - apply (frames_pure (λ _, Ok _)). }
  simpl. destruct (Hfcc h l) as (n & ids & ->).
  split; [by eexists _, _|]. by destruct (h !!! l).
Qed.

Lemma only_maps_differ_chains s s' :
  only_maps_differ s s' → Interface.get_chains s' = Interface.get_chains s.
Proof. intros (n & ids & ->). done. Qed.

Lemma ensure_neighbors_can l (h : Interface.heap) :
  can_ensure (h !!! l) →
  ∃ h', ensure_neighbors l h = (Ok tt, h')
        ∧ (∀ l', only_maps_differ (h !!! l') (h' !!! l'))
        ∧ (∀ l', can_ensure (h !!! l') → can_ensure (h' !!! l')).
Proof.
  intros Hcan. unfold ensure_neighbors. unfold_M. simpl.
  destruct (dict_is_empty (Interface.neighbors (h !!! l))) eqn:Hempty; simpl.
  - destruct Hcan as [?|Hpairs]; [congruence|].
    destruct (set_neighbors_invariant (λ _, True) _ Hpairs) as (n & Hrun & _); [done..|].
    unfold Interface.on. rewrite Hrun. simpl. eexists. split; [done|]. split.
    + intros l'. destruct (decide (l' = l)) as [->|Hne].
      * rewrite lookup_total_insert_eq.
        exists n, (Interface.neighbors_id (h !!! l)). by destruct (h !!! l).
      * rewrite lookup_total_insert_ne by done. apply only_maps_differ_refl.
    + intros l' Hl'. destruct (decide (l' = l)) as [->|Hne].
      * rewrite lookup_total_insert_eq. by right.
      * by rewrite lookup_total_insert_ne.
  - eexists. split; [done|]. split; [intros l'; apply only_maps_differ_refl|done].
Qed.

(** X12: on a reference Interface without chains, [fcc] fails with the
    NameError of the unbound variable [chain] (line 213) once both contact
    maps are there: the loop of lines 210-212 has assigned nothing. *)
Theorem fcc_no_chain self mobile (h : Interface.heap) :
  Interface.get_chains (h !!! self) = [] →
  can_ensure (h !!! self) → can_ensure (h !!! mobile) →
  (Interface.fcc self mobile h).1 = Raise (NameError "chain").
Proof.
  intros Hchains Hself Hmobile. rewrite fcc_unfold, fcc_prepare_ensures.
  destruct (ensure_neighbors_can self h Hself) as (h1 & Hrun1 & Hsame1 & Hcan1).
  destruct (ensure_neighbors_can mobile h1 (Hcan1 _ Hmobile)) as (h2 & Hrun2 & Hsame2 & _).
  unfold_M. rewrite Hrun1, Hrun2.
  rewrite (only_maps_differ_chains _ _ (Hsame2 self)),
    (only_maps_differ_chains _ _ (Hsame1 self)), Hchains. done.
Qed.

Lemma fcc_no_chain_witness :
  (Interface.fcc 0%nat 0%nat (heap1 (Interface.init "I"))).1 = Raise (NameError "chain").
Proof.
  apply (fcc_no_chain 0%nat 0%nat (heap1 (Interface.init "I"))).
  - reflexivity.
  - right. compute_done.
  - right. compute_done.
Defined.

(** X13: when the mobile Interface, another object than the reference, has
    no entry for the chain [fcc] selects in its contact map, [fcc] fails
    with the KeyError of [mobile._get_neighbors_id(chain)] (line 214). *)
Theorem fcc_mobile_lacks_chain self mobile (h : Interface.heap) c :
  ready c (h !!! self) →
  head (Interface.get_chains (h !!! self)) = Some c →
  mobile ≠ self → lacks_chain c (h !!! mobile) →
  (Interface.fcc self mobile h).1 = Raise KeyError.
Proof.
  intros Hself Hc Hne Hlacks. rewrite fcc_unfold, fcc_prepare_ensures.
  destruct (ensure_neighbors_ready self h c Hself) as (h1 & Hrun1 & Hs1 & Hcd1 & Hrest1).
  assert (Hm2 : ∃ h2, ensure_neighbors mobile h1 = (Ok tt, h2)
                      ∧ dict_get c (Interface.neighbors (h2 !!! mobile)) = None
                      ∧ h2 !!! self = h1 !!! self).
  { unfold ensure_neighbors. unfold_M. simpl. rewrite (Hrest1 mobile Hne).
    destruct Hlacks as [(Hfresh & Hpairs & Hnot)|[Hfull Hnone]].
    - rewrite Hfresh. simpl.
      destruct (set_neighbors_invariant (λ _, True) _ Hpairs) as (n & Hrun & _ & Hkeys);
        [done..|].
      unfold Interface.on. rewrite (Hrest1 mobile Hne), Hrun. simpl.
      eexists. split; [done|]. rewrite lookup_total_insert_eq.
      rewrite lookup_total_insert_ne by done. split; [|done]. simpl.
      destruct (dict_get c n) as [d|] eqn:Hd; [|done].
      apply dict_get_Some_key in Hd. rewrite Hkeys, Hfresh in Hd.
      apply reset_chains_keys in Hd as [?|?%elem_of_nil]; done.
    - rewrite Hfull. simpl. eexists. split; [done|]. by rewrite (Hrest1 mobile Hne). }
  destruct Hm2 as (h2 & Hrun2 & Hm2 & Hs2).
  unfold_M. rewrite Hrun1, Hrun2, Hs2.
  unfold Interface.get_chains in *. rewrite Hcd1, Hc. simpl.
  destruct Hs1 as [d Hd].
  unfold Interface.on at 1. rewrite Hs2, _get_neighbors_id_map, Hd. simpl.
  unfold Interface.on. rewrite lookup_total_insert_ne by done.
  by rewrite _get_neighbors_id_map, Hm2.
Qed.

Lemma fcc_mobile_lacks_chain_witness :
  (Interface.fcc 0%nat 1%nat
     (heap2 reference (iface_of [("C", [C30])] []))).1 = Raise KeyError.
Proof.
  apply (fcc_mobile_lacks_chain 0%nat 1%nat
           (heap2 reference (iface_of [("C", [C30])] [])) "A").
  - left. repeat split; compute_done.
  - reflexivity.
  - discriminate.
  - left. repeat split; compute_done.
Defined.

Lemma settled_run c s : settled c s → Interface._get_neighbors_id c s = (Ok tt, s).
Proof.
  intros (d & Hd & Hids). rewrite _get_neighbors_id_map, Hd, <- Hids. by destruct s.
Qed.

Lemma settled_not_empty c s : settled c s → dict_is_empty (Interface.neighbors s) = false.
Proof. intros (d & Hd & _). by destruct (Interface.neighbors s). Qed.

Lemma settled_built c s d :
  dict_get c (Interface.neighbors s) = Some d →
  settled c (Interface.with_neighbors_id (ids_of d) s).
Proof. intros Hd. exists d. by destruct s. Qed.

Lemma on_same {A} (l : Interface.ref) (m : M Interface.t A) (h : Interface.heap) r :
  m (h !!! l) = (r, h !!! l) → is_Some (h !! l) → Interface.on l m h = (r, h).
Proof.
  intros Hm Hl. unfold Interface.on. rewrite Hm. f_equal.
  apply insert_id. by apply lookup_lookup_total.
Qed.

Lemma on__get_neighbors_id_Ok l c (h h' : Interface.heap) :
  Interface.on l (Interface._get_neighbors_id c) h = (Ok tt, h') →
  ∃ d, dict_get c (Interface.neighbors (h !!! l)) = Some d
       ∧ h' = <[l := Interface.with_neighbors_id (ids_of d) (h !!! l)]> h.
Proof.
  unfold Interface.on. rewrite _get_neighbors_id_map.
  destruct (dict_get c (Interface.neighbors (h !!! l))) as [d|]; [|done].
  intros [= <-]. eauto.
Qed.

(** What the preparation of [fcc] leaves when it succeeds: both Interfaces
    are in the store, with the id map of the selected chain. *)
Lemma fcc_prepare_settled self mobile (h h1 : Interface.heap) :
  Interface.fcc_prepare self mobile h = (Ok tt, h1) →
  ∃ c, head (Interface.get_chains (h1 !!! self)) = Some c
       ∧ settled c (h1 !!! self) ∧ settled c (h1 !!! mobile)
       ∧ is_Some (h1 !! self) ∧ is_Some (h1 !! mobile).
Proof.
  unfold Interface.fcc_prepare. intros H.
  do 4 (apply bind_Ok_inv in H as (? & ? & _ & H)).
  apply bind_Ok_inv in H as (s & h5 & Hgets & H).
  unfold gets in Hgets. injection Hgets as <- <-.
  apply bind_Ok_inv in H as (c & h6 & Hc & H).
  unfold lift in Hc. injection Hc as Hc <-.
  match type of Hc with context [head ?l] => destruct (head l) as [c'|] eqn:Hhead end;
    [|discriminate].
  simpl in Hc. injection Hc as ->.
  apply bind_Ok_inv in H as ([] & h7 & Hself & Hmobile).
  apply on__get_neighbors_id_Ok in Hself as (ds & Hds & ->).
  apply on__get_neighbors_id_Ok in Hmobile as (dm & Hdm & ->).
  exists c. pose proof (settled_built c _ dm Hdm) as Hsettled_m.
  destruct (decide (mobile = self)) as [->|Hne].
  - rewrite ?lookup_total_insert_eq in *. rewrite !lookup_insert_eq.
    repeat split; eauto.
  - rewrite (lookup_total_insert_ne _ mobile self) by done.
    rewrite ?lookup_total_insert_eq.
    rewrite (lookup_insert_ne _ mobile self) by done. rewrite !lookup_insert_eq.
    rewrite (lookup_total_insert_ne _ self mobile) in * by done.
    repeat split; eauto using settled_built.
Qed.

(** X14: once [fcc] has returned a value, calling it again on the store it
    left returns the same value and leaves the store as it is: the contact
    maps are not built a second time. *)
Theorem fcc_again self mobile (h h1 : Interface.heap) q :
  Interface.fcc self mobile h = (Ok q, h1) →
  Interface.fcc self mobile h1 = (Ok q, h1).
Proof.
  rewrite !fcc_unfold.
  destruct (Interface.fcc_prepare self mobile h) as [[[]|e] h'] eqn:Hprep; [|done].
  simpl. destruct (decide _) as [|Htotal]; [done|]. intros [= <- <-].
  destruct (fcc_prepare_settled _ _ _ _ Hprep) as (c & Hc & Hs & Hm & Hins & Hinm).
  assert (Hagain : Interface.fcc_prepare self mobile h' = (Ok tt, h')).
  { unfold Interface.fcc_prepare. unfold_M. simpl.
    rewrite (settled_not_empty c _ Hs). unfold_M. simpl.
    rewrite (settled_not_empty c _ Hm). unfold_M. simpl.
    rewrite Hc. simpl.
    rewrite (on_same self _ h' (Ok tt)) by (by try apply settled_run).
    by rewrite (on_same mobile _ h' (Ok tt)) by (by try apply settled_run). }
  rewrite Hagain. simpl. by rewrite decide_False.
Qed.

Lemma fcc_again_witness :
  let h1 := (Interface.fcc 0%nat 1%nat (heap2 reference mobile)).2 in
  Interface.fcc 0%nat 1%nat h1 = (Ok 0%Q, h1).
Proof.
  apply (fcc_again 0%nat 1%nat (heap2 reference mobile)).
  vm_compute. reflexivity.
Defined.

(** ** Further properties of calculate_percentage *)

Lemma count_residue_cases codes polarity pka counts r :
  (classified codes polarity pka r
   ∧ ∃ counts', Interface.count_residue codes polarity pka counts r = Ok counts')
  ∨ (¬ classified codes polarity pka r
     ∧ Interface.count_residue codes polarity pka counts r = Raise KeyError).
Proof.
  destruct counts as [[polar apolar] charged].
  unfold classified, class_of, Interface.count_residue. unfold_M.
  destruct (dict_get (Residue.resname r) codes) as [code|]; simpl;
    [|right; split; [by intros (? & _ & [? ?])|done]].
  destruct (dict_get "polar" polarity) as [polar_codes|]; simpl;
    [|right; split; [by intros (? & ? & _)|done]].
  destruct (bool_decide (code ∈ polar_codes)) eqn:Hin; simpl.
  - destruct (dict_get code pka) as [[]|] eqn:Hpka; simpl.
    + left. split; [|eauto]. exists polar_codes. rewrite Hin. simpl. eauto.
    + left. split; [|eauto]. exists polar_codes. rewrite Hin. simpl. eauto.
    + right. split; [|done]. intros (pc & [= <-] & [cls Hcls]).
      rewrite Hin in Hcls. by simpl in Hcls.
  - left. split; [|eauto]. exists polar_codes. rewrite Hin. eauto.
Qed.

Lemma count_residues_cases codes polarity pka l counts :
  (Forall (classified codes polarity pka) l
   ∧ ∃ counts', Interface.count_residues codes polarity pka counts l = Ok counts')
  ∨ (Exists (λ r, ¬ classified codes polarity pka r) l
     ∧ Interface.count_residues codes polarity pka counts l = Raise KeyError).
Proof.
  revert counts. induction l as [|r l IH]; intros counts; simpl; [left; eauto|].
  destruct (count_residue_cases codes polarity pka counts r)
    as [[Hr [counts' ->]]|[Hr ->]]; simpl.
  - destruct (IH counts') as [[Hl [counts'' Hc]]|[Hl Hc]].
    + left. split; [by constructor|eauto].
    + right. split; [by apply Exists_cons_tl|done].
  - right. split; [by apply Exists_cons_hd|done].
Qed.

Lemma classified_classes codes polarity pka polar_codes l :
  dict_get "polar" polarity = Some polar_codes →
  Forall (classified codes polarity pka) l →
  Forall (λ r, is_Some (class_of codes polar_codes pka r)) l.
Proof.
  intros Hpolar Hall. eapply Forall_impl; [exact Hall|].
  intros r (pc & Hpc & Hcls). by simplify_eq.
Qed.

Lemma class_count_nonneg codes polar_codes pka cls l :
  0 ≤ class_count codes polar_codes pka cls l.
Proof. unfold class_count. lia. Qed.

Lemma class_count_Permutation codes polar_codes pka cls l l' :
  l ≡ₚ l' → class_count codes polar_codes pka cls l = class_count codes polar_codes pka cls l'.
Proof.
  intros Hperm. unfold class_count. f_equal.
  induction Hperm as [|x l l' _ IH|x y l|l l' l'' _ IH1 _ IH2]; simpl;
    [done| | |congruence].
  - destruct (bool_decide _); simpl; congruence.
  - repeat destruct (bool_decide _); simpl; congruence.
Qed.

(** The outcome of [calculate_percentage] on an Interface with at least
    one residue, all with a class. *)
Lemma calculate_percentage_Ok codes polarity pka self :
  Interface.child_list self ≠ [] →
  Forall (classified codes polarity pka) (Interface.child_list self) →
  ∃ polar_codes,
    dict_get "polar" polarity = Some polar_codes
    ∧ let n := Interface.len self in
      let count cls := class_count codes polar_codes pka cls (Interface.child_list self) in
      0 < n ∧ count Polar + count Apolar + count Charged = n
      ∧ Interface.calculate_percentage codes polarity pka self
        = Ok [(inject_Z (count Polar) / inject_Z n)%Q;
              (inject_Z (count Apolar) / inject_Z n)%Q;
              (inject_Z (count Charged) / inject_Z n)%Q].
Proof.
  intros Hne Hall.
  assert (∃ polar_codes, dict_get "polar" polarity = Some polar_codes)
    as [polar_codes Hpolar].
  { destruct Hall as [|r l (pc & Hpc & _) _]; [done|eauto]. }
  exists polar_codes. split; [done|]. intros n count.
  assert (Hn : 0 < n).
  { unfold n, Interface.len. destruct (Interface.child_list self); [done|].
    cbn [length]. lia. }
  pose proof (classified_classes _ _ _ _ _ Hpolar Hall) as Hcls.
  split; [done|]. split.
  { unfold count, n, Interface.len. by apply (count_total codes pka polar_codes). }
  unfold Interface.calculate_percentage, Interface.iter.
  rewrite (count_residues_classes codes polarity pka polar_codes Hpolar) by done.
  unfold_M. unfold Interface.float_div. fold n.
  rewrite !decide_False by lia. rewrite !Z.add_0_l. reflexivity.
Qed.

(** X15: the failures of [calculate_percentage], for every table and
    Interface. It raises KeyError exactly when one of the residues has no
    class (its name has no one-letter code, the polarity table has no entry
    of polar codes, or its polar code has no entry in the charge table);
    it raises ZeroDivisionError exactly when the Interface has no residue,
    whatever the tables; it raises nothing else, and returns a value in
    every other case. *)
Theorem calculate_percentage_failures codes polarity pka self :
  let r := Interface.calculate_percentage codes polarity pka self in
  (r = Raise KeyError
     ↔ Exists (λ r, ¬ classified codes polarity pka r) (Interface.child_list self))
  ∧ (r = Raise ZeroDivisionError ↔ Interface.child_list self = [])
  ∧ ((∃ fractions, r = Ok fractions)
     ↔ Interface.child_list self ≠ []
       ∧ Forall (classified codes polarity pka) (Interface.child_list self))
  ∧ (∀ e, r = Raise e → e = KeyError ∨ e = ZeroDivisionError).
Proof.
  intros r.
  destruct (count_residues_cases codes polarity pka (Interface.child_list self) (0, 0, 0))
    as [[Hall [counts Hcounts]]|[Hex Hcounts]].
  - assert (Hnex : ¬ Exists (λ r, ¬ classified codes polarity pka r)
                     (Interface.child_list self)).
    { intros Hex. apply Exists_exists in Hex as (x & Hx & Hnx).
      rewrite Forall_forall in Hall. apply Hnx, Hall, Hx. }
    destruct (decide (Interface.child_list self = [])) as [Hnil|Hne].
    + assert (Hr : r = Raise ZeroDivisionError).
      { unfold r, Interface.calculate_percentage, Interface.iter, Interface.len.
        rewrite Hnil. simpl. reflexivity. }
      rewrite Hr. split; [split; [discriminate|done]|].
      split; [done|]. split.
      * split; [by intros [? ?]|by intros [? _]].
      * intros e [= <-]. by right.
    + destruct (calculate_percentage_Ok codes polarity pka self Hne Hall)
        as (pc & _ & _ & _ & Hr).
      fold r in Hr. rewrite Hr. split; [split; [discriminate|done]|].
      split; [split; [discriminate|done]|]. split; [|discriminate].
      split; eauto.
  - assert (Hne : Interface.child_list self ≠ []).
    { intros Hnil. rewrite Hnil in Hex. by apply Exists_nil in Hex. }
    assert (Hr : r = Raise KeyError).
    { unfold r, Interface.calculate_percentage, Interface.iter.
      by rewrite Hcounts. }
    rewrite Hr. split; [done|]. split; [split; [discriminate|done]|]. split.
    + split; [by intros [? ?]|].
      intros [_ Hall]. apply Exists_exists in Hex as (x & Hx & Hnx).
      rewrite Forall_forall in Hall. exfalso. apply Hnx, Hall, Hx.
    + intros e [= <-]. by left.
Qed.

(** X16: the composition does not depend on the order of the residues:
    two Interfaces whose residue lists are rearrangements of each other
    get the same outcome of [calculate_percentage], fractions or
    exception. *)
Theorem calculate_percentage_order codes polarity pka self other :
  Interface.child_list self ≡ₚ Interface.child_list other →
  Interface.calculate_percentage codes polarity pka self
  = Interface.calculate_percentage codes polarity pka other.
Proof.
  intros Hperm.
  destruct (count_residues_cases codes polarity pka (Interface.child_list self) (0, 0, 0))
    as [[Hall _]|[Hex Hcounts]].
  - destruct (decide (Interface.child_list self = [])) as [Hnil|Hne].
    + assert (Hnil' : Interface.child_list other = []).
      { rewrite Hnil in Hperm. by apply Permutation_nil_l in Hperm. }
      unfold Interface.calculate_percentage, Interface.iter, Interface.len.
      by rewrite Hnil, Hnil'.
    + assert (Hne' : Interface.child_list other ≠ []).
      { intros Hnil. rewrite Hnil in Hperm. by apply Permutation_nil_r in Hperm. }
      assert (Hall' : Forall (classified codes polarity pka) (Interface.child_list other))
        by by rewrite <- Hperm.
      destruct (calculate_percentage_Ok codes polarity pka self Hne Hall)
        as (pc & Hpc & _ & _ & ->).
      destruct (calculate_percentage_Ok codes polarity pka other Hne' Hall')
        as (pc' & Hpc' & _ & _ & ->).
      assert (pc' = pc) as -> by congruence. unfold Interface.len.
      rewrite !(class_count_Permutation codes pc pka _ _ _ Hperm).
      by rewrite (Permutation_length Hperm).
  - assert (Hex' : Exists (λ r, ¬ classified codes polarity pka r)
                     (Interface.child_list other)) by by rewrite <- Hperm.
    destruct (count_residues_cases codes polarity pka (Interface.child_list other) (0, 0, 0))
      as [[Hall' _]|[_ Hcounts']].
    + apply Exists_exists in Hex' as (x & Hx & Hnx).
      rewrite Forall_forall in Hall'. exfalso. apply Hnx, Hall', Hx.
    + unfold Interface.calculate_percentage, Interface.iter.
      by rewrite Hcounts, Hcounts'.
Qed.

Lemma calculate_percentage_order_witness :
  Interface.calculate_percentage sample_codes sample_polarity sample_pka reference
  = Interface.calculate_percentage sample_codes sample_polarity sample_pka reference_BA.
Proof.
  apply (calculate_percentage_order sample_codes sample_polarity sample_pka
           reference reference_BA).
  apply (Permutation_app_comm [A10; A11] [B20; B21]).
Defined.

Lemma fraction_bounds (x n : Z) :
  0 ≤ x → x ≤ n → 0 < n → (0 <= inject_Z x / inject_Z n)%Q ∧ (inject_Z x / inject_Z n <= 1)%Q.
Proof.
  intros Hx Hxn Hn. destruct n as [|n|n]; [lia| |lia].
  unfold Qle, Qdiv, Qmult, Qinv, inject_Z. simpl. lia.
Qed.

(** X17: whenever [calculate_percentage] returns, it returns three
    fractions, each between 0 and 1. *)
Theorem calculate_percentage_bounds codes polarity pka self fractions :
  Interface.calculate_percentage codes polarity pka self = Ok fractions →
  ∃ polar apolar charged,
    fractions = [polar; apolar; charged]
    ∧ (0 <= polar)%Q ∧ (polar <= 1)%Q
    ∧ (0 <= apolar)%Q ∧ (apolar <= 1)%Q
    ∧ (0 <= charged)%Q ∧ (charged <= 1)%Q.
Proof.
  intros Hr.
  destruct (count_residues_cases codes polarity pka (Interface.child_list self) (0, 0, 0))
    as [[Hall _]|[_ Hcounts]].
  - destruct (decide (Interface.child_list self = [])) as [Hnil|Hne].
    { unfold Interface.calculate_percentage, Interface.iter, Interface.len in Hr.
      rewrite Hnil in Hr. simpl in Hr. discriminate. }
    destruct (calculate_percentage_Ok codes polarity pka self Hne Hall)
      as (pc & _ & Hn & Hsum & Hr').
    rewrite Hr' in Hr. injection Hr as <-.
    pose proof (class_count_nonneg codes pc pka Polar (Interface.child_list self)).
    pose proof (class_count_nonneg codes pc pka Apolar (Interface.child_list self)).
    pose proof (class_count_nonneg codes pc pka Charged (Interface.child_list self)).
    eexists _, _, _. split; [reflexivity|].
    repeat split; apply fraction_bounds; lia.
  - unfold Interface.calculate_percentage, Interface.iter in Hr.
    rewrite Hcounts in Hr. discriminate.
Qed.

Lemma calculate_percentage_bounds_witness :
  ∃ polar apolar charged,
    [(1 # 4)%Q; (2 # 4)%Q; (1 # 4)%Q] = [polar; apolar; charged]
    ∧ (0 <= polar)%Q ∧ (polar <= 1)%Q
    ∧ (0 <= apolar)%Q ∧ (apolar <= 1)%Q
    ∧ (0 <= charged)%Q ∧ (charged <= 1)%Q.
Proof.
  apply (calculate_percentage_bounds sample_codes sample_polarity sample_pka reference).
  reflexivity.
Defined.

(** ** Further properties of rmsd *)

Lemma _get_atoms_coords_fold_Raise (l : list (Residue.t * Residue.t)) e :
  foldl (λ (acc : result (list Atom.t * list Atom.t)) '(ref_res, alt_res),
           '(ref_atoms, alt_atoms) ← acc;
           ref_ca ← Residue.getitem ref_res "CA";
           alt_ca ← Residue.getitem alt_res "CA";
           Ok (ref_atoms ++ [ref_ca], alt_atoms ++ [alt_ca]))
        (Raise e) l = Raise e.
Proof. induction l as [|[r r'] l IH]; [done|]. simpl. exact IH. Qed.

Lemma _get_atoms_coords_fold (l1 l2 : list Residue.t) ra0 aa0 ra aa :
  foldl (λ (acc : result (list Atom.t * list Atom.t)) '(ref_res, alt_res),
           '(ref_atoms, alt_atoms) ← acc;
           ref_ca ← Residue.getitem ref_res "CA";
           alt_ca ← Residue.getitem alt_res "CA";
           Ok (ref_atoms ++ [ref_ca], alt_atoms ++ [alt_ca]))
        (Ok (ra0, aa0)) (Interface.zip l1 l2) = Ok (ra, aa)
  ↔ ∃ ra' aa',
      ra = ra0 ++ ra' ∧ aa = aa0 ++ aa'
      ∧ Forall2 (λ r a, Residue.getitem r "CA" = Ok a)
                (take (length l1 `min` length l2)%nat l1) ra'
      ∧ Forall2 (λ r a, Residue.getitem r "CA" = Ok a)
                (take (length l1 `min` length l2)%nat l2) aa'.
Proof.
  revert l2 ra0 aa0. induction l1 as [|r l1 IH]; intros l2 ra0 aa0.
  { simpl. split.
    - intros [= <- <-]. exists [], []. rewrite !app_nil_r.
      repeat split; constructor.
    - intros (ra' & aa' & -> & -> & Hra%Forall2_nil_inv_l & Haa).
      rewrite take_0 in Haa. apply Forall2_nil_inv_l in Haa.
      subst. by rewrite !app_nil_r. }
  destruct l2 as [|r2 l2].
  { simpl. split.
    - intros [= <- <-]. exists [], []. rewrite !app_nil_r.
      repeat split; constructor.
    - intros (ra' & aa' & -> & -> & Hra%Forall2_nil_inv_l & Haa%Forall2_nil_inv_l).
      subst. by rewrite !app_nil_r. }
  cbn [Interface.zip foldl length]. rewrite <- Nat.succ_min_distr. cbn [take].
  unfold_M. cbn [result_bind].
  destruct (Residue.getitem r "CA") as [a|e] eqn:Hr; cbn [result_bind].
  2:{ rewrite _get_atoms_coords_fold_Raise. split; [done|].
      intros (ra' & aa' & _ & _ & Hra & _).
      apply Forall2_cons_inv_l in Hra as (? & ? & ? & _). congruence. }
  destruct (Residue.getitem r2 "CA") as [a2|e] eqn:Hr2; cbn [result_bind].
  2:{ rewrite _get_atoms_coords_fold_Raise. split; [done|].
      intros (ra' & aa' & _ & _ & _ & Haa).
      apply Forall2_cons_inv_l in Haa as (? & ? & ? & _). congruence. }
  rewrite IH. split.
  - intros (ra' & aa' & -> & -> & Hra & Haa).
    exists (a :: ra'), (a2 :: aa'). rewrite <- !app_assoc.
    repeat split; by constructor.
  - intros (ra' & aa' & -> & -> & Hra & Haa).
    apply Forall2_cons_inv_l in Hra as (a' & ra'' & Ha' & Hra & ->).
    apply Forall2_cons_inv_l in Haa as (a2' & aa'' & Ha2' & Haa & ->).
    rewrite Hr in Ha'. rewrite Hr2 in Ha2'. injection Ha' as <-. injection Ha2' as <-.
    exists ra'', aa''. by rewrite <- !app_assoc.
Qed.

(** X18: what [_get_atoms_coords] pairs. It returns two lists exactly when
    each of the first k residues of either Interface has an atom CA, k
    being the smaller of the two numbers of residues; the lists are then
    the CA atoms of these residues, in order, of the same length k. The
    residues beyond k are passed over without notice, and [opt] is not
    looked at. *)
Theorem _get_atoms_coords_pairs self interface opt ref_atoms alt_atoms :
  let k := (length (Interface.child_list self)
            `min` length (Interface.child_list interface))%nat in
  Interface._get_atoms_coords self interface opt = Ok (ref_atoms, alt_atoms)
  ↔ Forall2 (λ r a, Residue.getitem r "CA" = Ok a)
            (take k (Interface.child_list self)) ref_atoms
    ∧ Forall2 (λ r a, Residue.getitem r "CA" = Ok a)
              (take k (Interface.child_list interface)) alt_atoms.
Proof.
  intros k. unfold Interface._get_atoms_coords.
  rewrite _get_atoms_coords_fold. fold k. split.
  - by intros (ra' & aa' & -> & -> & Hra & Haa).
  - intros [Hra Haa]. by exists ref_atoms, alt_atoms.
Qed.

Lemma result_map_length {A B} (f : A → result B) l ys :
  result_map f l = Ok ys → length ys = length l.
Proof.
  revert ys. induction l as [|x l IH]; intros ys; simpl; [by intros [= <-]|].
  destruct (f x) as [y|]; simpl; [|done].
  destruct (result_map f l) as [ys'|]; simpl; [|done].
  intros [= <-]. simpl. f_equal. by apply IH.
Qed.

Lemma one_letter_seq_cases codes s :
  (∃ seq, Interface.one_letter_seq codes s = Ok seq
          ∧ length seq = length (Interface.child_list s))
  ∨ (Interface.one_letter_seq codes s = Raise KeyError
     ∧ Exists (λ r, dict_get (Residue.resname r) codes = None) (Interface.child_list s)).
Proof.
  unfold Interface.one_letter_seq.
  induction (Interface.child_list s) as [|r l IH]; simpl; [left; eauto|].
  destruct (dict_get (Residue.resname r) codes) as [code|] eqn:Hr; simpl.
  - destruct IH as [(seq & -> & Hlen)|[-> Hex]]; simpl.
    + left. eexists. split; [done|]. simpl. by rewrite Hlen.
    + right. split; [done|]. by apply Exists_cons_tl.
  - right. split; [done|]. by apply Exists_cons_hd.
Qed.

(** X19: without [mob_ref], [rmsd] returns a value only for two Interfaces
    of the same number of residues: the check of the sorted codes stops
    every other pair before the atoms are paired. *)
Theorem rmsd_same_size codes rms self mobile v :
  Interface.rmsd codes rms self mobile None = Ok v →
  length (Interface.child_list self) = length (Interface.child_list mobile).
Proof.
  unfold Interface.rmsd. unfold_M. simpl.
  destruct (one_letter_seq_cases codes self) as [(ref_seq & -> & Href)|[-> _]];
    simpl; [|done].
  destruct (one_letter_seq_cases codes mobile) as [(alt_seq & -> & Halt)|[-> _]];
    simpl; [|done].
  case_bool_decide as Hne; simpl; [done|]. intros _.
  apply sorted_eq_iff_Permutation in Hne.
  rewrite <- Href, <- Halt. by apply Permutation_length.
Qed.

Lemma rmsd_same_size_witness :
  length (Interface.child_list reference) = length (Interface.child_list mobile).
Proof.
  apply (rmsd_same_size sample_codes sample_rms reference mobile 0%Q). reflexivity.
Defined.

(** X20: without [mob_ref], a residue name of either Interface that the
    code table lacks makes [rmsd] raise KeyError, whatever else holds of the
    two Interfaces; with [mob_ref] the table is not consulted, and the same
    call goes on to the superposition. *)
Theorem rmsd_unknown_resname codes rms self mobile :
  Exists (λ r, dict_get (Residue.resname r) codes = None)
         (Interface.child_list self ++ Interface.child_list mobile) →
  Interface.rmsd codes rms self mobile None = Raise KeyError
  ∧ Interface.rmsd codes rms self mobile (Some true) = Interface.superimpose rms self mobile.
Proof.
  intros Hex. split; [|reflexivity].
  assert (Hnone : ∀ s seq, Interface.one_letter_seq codes s = Ok seq →
            ¬ Exists (λ r, dict_get (Residue.resname r) codes = None)
                (Interface.child_list s)).
  { intros s. unfold Interface.one_letter_seq.
    induction (Interface.child_list s) as [|r l IH]; intros seq; simpl.
    - intros _ H. by apply Exists_nil in H.
    - destruct (dict_get (Residue.resname r) codes) as [code|] eqn:Hr; simpl; [|done].
      destruct (result_map _ l) as [seq'|]; simpl; [|done].
      intros _ [H|H]%Exists_cons; [congruence|]. by apply (IH seq'). }
  unfold Interface.rmsd. unfold_M. simpl.
  destruct (one_letter_seq_cases codes self) as [(ref_seq & Href & _)|[-> _]];
    simpl; [|done].
  rewrite Href. simpl.
  destruct (one_letter_seq_cases codes mobile) as [(alt_seq & Halt & _)|[-> _]];
    simpl; [|done].
  apply Exists_app in Hex as [Hex|Hex]; exfalso.
  - by apply (Hnone self ref_seq).
  - by apply (Hnone mobile alt_seq).
Qed.

Lemma rmsd_unknown_resname_witness :
  Interface.rmsd sample_codes sample_rms reference unnamed None = Raise KeyError
  ∧ Interface.rmsd sample_codes sample_rms reference unnamed (Some true)
    = Interface.superimpose sample_rms reference unnamed.
Proof.
  apply (rmsd_unknown_resname sample_codes sample_rms reference unnamed).
  apply Exists_app. right. apply Exists_cons_hd. reflexivity.
Defined.

(** ** Further properties of add *)

Lemma chain_members_snoc c l r :
  chain_members c (l ++ [r])
  = chain_members c l ++ (if decide (Residue.parent_id r = c) then [r] else []).
Proof.
  unfold chain_members. rewrite List.filter_app. simpl.
  case_bool_decide; [by rewrite decide_True|by rewrite decide_False].
Qed.

Lemma grouped_entry s c :
  grouped s →
  default [] (dict_get c (Interface.child_dict s)) = chain_members c (Interface.child_list s).
Proof.
  intros [_ Hg]. rewrite Hg. by destruct (decide _) as [->|].
Qed.

Lemma add_step has_id entity s :
  grouped s →
  ∃ s', Interface.add has_id entity s = (Ok tt, s') ∧ grouped s'
        ∧ Interface.child_list s'
          = Interface.child_list s
            ++ (if has_id s (Interface.get_id entity) then [] else [entity]).
Proof.
  intros Hg. pose proof (grouped_entry s (Residue.parent_id entity) Hg) as Hentry.
  destruct Hg as [Hnd Hg].
  unfold Interface.add. unfold_M. simpl.
  destruct (has_id s (Interface.get_id entity)); simpl.
  { exists s. by rewrite app_nil_r. }
  set (p := Residue.parent_id entity) in *.
  assert (Hfinal : ∀ cd l,
    NoDup (dict_keys cd) →
    (∀ c, c ≠ p → dict_get c cd = dict_get c (Interface.child_dict s)) →
    l = chain_members p (Interface.child_list s) →
    grouped (Interface.mk (Interface.level s) (Interface.id s)
               (Interface.child_list s ++ [entity]) (dict_set p (l ++ [entity]) cd)
               (Interface.neighbors s) (Interface.uniq_pairs s)
               (Interface.neighbors_id s) (Interface.model s))).
  { intros cd l Hcd Hother ->. split.
    - unfold Interface.get_chains. simpl. by apply dict_set_keys_NoDup.
    - intros c. simpl. rewrite chain_members_snoc. fold p.
      destruct (decide (p = c)) as [Heq|Hne]; simpl.
      + subst c. rewrite dict_get_set_eq. rewrite decide_False; [done|].
        by intros []%app_eq_nil.
      + rewrite dict_get_set_ne by done. rewrite app_nil_r.
        rewrite Hother by done. apply Hg. }
  destruct (dict_mem p (Interface.child_dict s)) eqn:Hmem; simpl.
  - apply dict_mem_true in Hmem as [l Hl]. rewrite Hl in *. simpl in *.
    eexists. split; [reflexivity|]. split; [|done].
    by apply Hfinal.
  - assert (Hnone : dict_get p (Interface.child_dict s) = None).
    { apply eq_None_not_Some. rewrite <- dict_mem_true. by rewrite Hmem. }
    rewrite Hnone in Hentry. simpl in Hentry.
    rewrite dict_get_set_eq. simpl.
    eexists. split; [reflexivity|]. split; [|done].
    apply (Hfinal _ []); [by apply dict_set_keys_NoDup| |done].
    intros c Hc. by rewrite dict_get_set_ne.
Qed.

(** X21: whatever [has_id] answers, any sequence of calls of [add] on a
    fresh Interface succeeds and leaves [child_dict] listing [child_list] by
    chain: a chain has an entry exactly when one of the residues kept is of
    that chain, and the entry holds these residues in the order of
    [child_list]; [get_chains] yields each such chain once; and the residues
    kept are residues passed to [add], in the order of the calls. *)
Theorem add_groups_by_chain (has_id : Interface.t → res_id_t → bool) id
    (residues : list Residue.t) :
  ∃ s, for_each residues (Interface.add has_id) (Interface.init id) = (Ok tt, s)
       ∧ grouped s
       ∧ sublist (Interface.child_list s) residues
       ∧ ∀ c, c ∈ Interface.get_chains s
              ↔ ∃ r, r ∈ Interface.child_list s ∧ Residue.parent_id r = c.
Proof.
  assert (Hgen : ∀ l s0, grouped s0 →
            ∃ s l', for_each l (Interface.add has_id) s0 = (Ok tt, s) ∧ grouped s
                    ∧ sublist l' l
                    ∧ Interface.child_list s = Interface.child_list s0 ++ l').
  { induction l as [|r l IH]; intros s0 Hg0; simpl.
    - exists s0, []. by rewrite app_nil_r.
    - destruct (add_step has_id r s0 Hg0) as (s1 & Hadd & Hg1 & Hl1).
      destruct (IH s1 Hg1) as (s & l' & Hrun & Hg & Hsub & Hl).
      unfold_M. rewrite Hadd.
      exists s. destruct (has_id s0 (Interface.get_id r)).
      + exists l'. rewrite app_nil_r in Hl1. rewrite Hl1 in Hl.
        split; [exact Hrun|]. split; [exact Hg|]. split; [|exact Hl].
        by apply sublist_cons.
      + exists (r :: l'). rewrite Hl1, <- app_assoc in Hl.
        split; [exact Hrun|]. split; [exact Hg|]. split; [|exact Hl].
        by apply sublist_skip. }
  destruct (Hgen residues (Interface.init id)) as (s & l' & Hrun & Hg & Hsub & Hl).
  { split; [apply NoDup_nil_2|done]. }
  exists s. split; [done|]. split; [done|]. split; [by rewrite Hl|].
  intros c. destruct Hg as [_ Hg]. unfold Interface.get_chains. split.
  - intros [v Hv]%dict_key_get_Some. rewrite Hg in Hv.
    destruct (decide _) as [|Hne]; [done|].
    destruct (chain_members c (Interface.child_list s)) as [|r rs] eqn:Hcm; [done|].
    assert (Hin : In r (chain_members c (Interface.child_list s)))
      by (rewrite Hcm; by left).
    apply List.filter_In in Hin as [Hin Hc].
    exists r. split; [by apply list_elem_of_In|by apply bool_decide_eq_true in Hc].
  - intros (r & Hr & Hc).
    apply (dict_get_Some_key _ c (chain_members c (Interface.child_list s))).
    rewrite Hg. rewrite decide_False; [done|].
    intros Hnil.
    assert (Hin : In r (chain_members c (Interface.child_list s))).
    { apply List.filter_In. split; [by apply list_elem_of_In|].
      by apply bool_decide_eq_true. }
    by rewrite Hnil in Hin.
Qed.

(** ** Further properties of calculate_BSA *)

Lemma annotate_other (asa : list (nat * Q)) (x : gmap nat Q) uid :
  uid ∉ asa.*1 →
  foldl (λ x '(uid, a), <[uid := a]> x) x asa !! uid = x !! uid.
Proof.
  revert x. induction asa as [|[uid' a'] asa IH]; intros x Hnotin; simpl; [done|].
  rewrite fmap_cons in Hnotin. apply not_elem_of_cons in Hnotin as [Hne Hnotin].
  rewrite IH by done. by rewrite lookup_insert_ne.
Qed.

Lemma annotate_one (asa : list (nat * Q)) (x : gmap nat Q) uid a :
  NoDup asa.*1 → (uid, a) ∈ asa →
  foldl (λ x '(uid, a), <[uid := a]> x) x asa !! uid = Some a.
Proof.
  revert x. induction asa as [|[uid' a'] asa IH]; intros x Hnd Hin; simpl.
  { by apply elem_of_nil in Hin. }
  rewrite fmap_cons in Hnd. apply NoDup_cons in Hnd as [Hnotin Hnd].
  apply elem_of_cons in Hin as [[= <- <-]|Hin].
  - rewrite annotate_other by done. by rewrite lookup_insert_eq.
  - by apply IH.
Qed.

(** X22: the atoms of the one-chain structures are the atoms of the
    complex, so the runs of the surface-area program on the single chains
    replace the areas that the run on the complex wrote. When the lookups of
    lines 132-133 and the three runs succeed, the program has been handed
    the complex, then chain A, then chain B; an atom of the run on chain B
    carries the area of that run, an atom of the run on chain A (and not of
    B) the area of that run, and only the atoms of neither keep another
    value: the one of the complex if it gave one, else the one they had. *)
Theorem calculate_BSA_overwrites naccess self w m c0 c1 chA chB asa asaA asaB :
  Interface.model self = Some m →
  Interface.get_chains self !! 0%nat = Some c0 →
  Interface.get_chains self !! 1%nat = Some c1 →
  Model_getitem m c0 = Ok chA →
  Model_getitem m c1 = Ok chB →
  naccess m = Some asa → naccess [chA] = Some asaA → naccess [chB] = Some asaB →
  let w' := (Interface.calculate_BSA naccess self w).2 in
  Interface.submitted w' = Interface.submitted w ++ [m; [chA]; [chB]]
  ∧ (∀ uid a, NoDup asaB.*1 → (uid, a) ∈ asaB → Interface.xtra w' !! uid = Some a)
  ∧ (∀ uid a, NoDup asaA.*1 → (uid, a) ∈ asaA → uid ∉ asaB.*1 →
       Interface.xtra w' !! uid = Some a)
  ∧ (∀ uid a, NoDup asa.*1 → (uid, a) ∈ asa → uid ∉ asaA.*1 → uid ∉ asaB.*1 →
       Interface.xtra w' !! uid = Some a)
  ∧ (∀ uid, uid ∉ asa.*1 → uid ∉ asaA.*1 → uid ∉ asaB.*1 →
       Interface.xtra w' !! uid = Interface.xtra w !! uid).
Proof.
  intros Hm Hc0 Hc1 HchA HchB Hasa HasaA HasaB w'.
  assert (Hw' : w' = Interface.mk_world
            (foldl (λ x '(uid, a), <[uid := a]> x)
               (foldl (λ x '(uid, a), <[uid := a]> x)
                  (foldl (λ x '(uid, a), <[uid := a]> x) (Interface.xtra w) asa) asaA)
               asaB)
            (((Interface.submitted w ++ [m]) ++ [[chA]]) ++ [[chB]])).
  { unfold w', Interface.calculate_BSA, Interface.NACCESS_atomic. unfold_M. simpl.
    rewrite Hm. simpl. rewrite Hc0. simpl. rewrite HchA. simpl.
    rewrite Hc1. simpl. rewrite HchB. simpl.
    rewrite Hasa. simpl. rewrite HasaA. simpl. rewrite HasaB. simpl.
    reflexivity. }
  rewrite Hw'. simpl. split; [by rewrite <- !app_assoc|].
  split; [intros; by apply annotate_one|].
  split; [intros; rewrite annotate_other by done; by apply annotate_one|].
  split; [intros; rewrite !annotate_other by done; by apply annotate_one|].
  intros. by rewrite !annotate_other.
Qed.

Lemma calculate_BSA_overwrites_witness :
  let w' := (Interface.calculate_BSA naccess_stub iface_AB world0).2 in
  Interface.xtra w' !! 7%nat = Some 1%Q ∧ Interface.xtra w' !! 11%nat = Some (1 # 2)%Q.
Proof.
  pose proof (calculate_BSA_overwrites naccess_stub iface_AB world0 complex "A" "B"
                (Chain.mk "A" [A10; A11]) (Chain.mk "B" [B20; B21])
                _ _ _ eq_refl eq_refl eq_refl eq_refl eq_refl eq_refl eq_refl eq_refl)
    as (_ & HB & _ & Hcomplex & _).
  split.
  - apply HB; [compute_done|]. compute_done.
  - apply Hcomplex; compute_done.
Defined.

Lemma result_map_from_option_cases {A B} (g : A → option B) (l : list A) :
  (∃ ys, result_map (λ x, from_option KeyError (g x)) l = Ok ys
         ∧ Forall (λ x, is_Some (g x)) l)
  ∨ (result_map (λ x, from_option KeyError (g x)) l = Raise KeyError
     ∧ Exists (λ x, g x = None) l).
Proof.
  induction l as [|x l IH]; simpl; [left; eauto|].
  destruct (g x) as [y|] eqn:Hx; simpl.
  - destruct IH as [(ys & -> & Hall)|[-> Hex]]; simpl.
    + left. eexists. split; [done|]. constructor; [by rewrite Hx|done].
    + right. split; [done|]. by apply Exists_cons_tl.
  - right. split; [done|]. by apply Exists_cons_hd.
Qed.

(** X23: the outcome of [_get_atomic_SASA], for every structure and every
    state of the annotations. It reads the area of the atoms that pass the
    filter of line 117 only: it raises KeyError exactly when one of these
    atoms has no area, and otherwise the NameError of line 118; hydrogens
    and the atoms of hetero residues are never looked up. It changes
    nothing. *)
Theorem _get_atomic_SASA_outcome structure w :
  let r := Interface._get_atomic_SASA structure w in
  r.2 = w
  ∧ (r.1 = Raise KeyError
     ↔ ∃ ra, ra ∈ Interface.get_atoms structure ∧ Interface.counted ra = true
             ∧ Interface.xtra w !! Atom.uid ra.2 = None)
  ∧ (r.1 = Raise (NameError "sas_l")
     ↔ ∀ ra, ra ∈ Interface.get_atoms structure → Interface.counted ra = true →
             is_Some (Interface.xtra w !! Atom.uid ra.2)).
Proof.
  intros r. unfold r, Interface._get_atomic_SASA. unfold_M. simpl.
  destruct (result_map_from_option_cases (λ ra : Residue.t * Atom.t,
              Interface.xtra w !! Atom.uid ra.2)
              (List.filter Interface.counted (Interface.get_atoms structure)))
    as [(ys & -> & Hall)|[-> Hex]]; simpl.
  - assert (Hall' : ∀ ra, ra ∈ Interface.get_atoms structure →
              Interface.counted ra = true →
              is_Some (Interface.xtra w !! Atom.uid ra.2)).
    { intros ra Hra Hcounted. rewrite Forall_forall in Hall. apply Hall.
      apply list_elem_of_In, List.filter_In. by rewrite <- list_elem_of_In. }
    split; [done|]. split; [|done]. split; [done|].
    intros (ra & Hra & Hcounted & Hnone).
    destruct (Hall' ra Hra Hcounted) as [? ?]. congruence.
  - apply Exists_exists in Hex as (ra & Hra & Hnone).
    apply list_elem_of_In, List.filter_In in Hra as [Hra Hcounted].
    apply list_elem_of_In in Hra.
    split; [done|]. split; [split; [eauto|done]|]. split; [done|].
    intros Hall. destruct (Hall ra Hra Hcounted) as [? ?]. congruence.
Qed.
